(** * libcyphal presentation layer: shared objects and the list of
      unreferenced nodes

    A shallow embedding of [include/libcyphal/presentation/shared_object.hpp]:
    the intrusive doubly linked list of [UnRefNode]s and the reference
    count of [SharedObject].

    Objects live in a store indexed by their address.  A C++ pointer is an
    optional address ([None] is [nullptr]); every member access the source
    performs is one read or one write of the store, in the order of the
    source, so that aliasing between [this], [origin] and their neighbours
    behaves as in the program. *)

From stdpp Require Import gmap list.
From Stdlib Require Import ZArith Lia.

Local Open Scope Z_scope.

(** ** Results of running a member function *)

(** What can go wrong: a failed [CETL_DEBUG_ASSERT], a dereferenced
    [nullptr], a pointer to no live object, or a walk along the list that
    is cut short. *)
Inductive fault : Type :=
  | AssertionFailure
  | NullDereference
  | InvalidPointer
  | OutOfFuel.

Inductive result (A : Type) : Type :=
  | Ok (a : A)
  | Fault (f : fault).
Arguments Ok {A} a.
Arguments Fault {A} f.

#[export] Instance result_ret : MRet result := fun A a => Ok a.
#[export] Instance result_bind : MBind result := fun A B k r =>
  match r with
  | Ok a => k a
  | Fault f => Fault f
  end.

Definition is_ok {A} (r : result A) : bool :=
  match r with Ok _ => true | Fault _ => false end.

(** Modelled from the spec: the macro [CETL_DEBUG_ASSERT] comes with the
    CETL headers, which are not among the sources; section 4.1 of the
    specification calls its failure "a debug-only assertion failure, not a
    recoverable error".  It is checked when assertions are compiled in
    ([debug = true]) and absent otherwise. *)
Definition CETL_DEBUG_ASSERT (debug c : bool) : result unit :=
  if debug && negb c then Fault AssertionFailure else Ok tt.

(** ** Pointers and the store of nodes *)

Definition loc : Type := positive.
Bind Scope positive_scope with loc.
Definition ptr : Type := option loc.

Definition is_null (p : ptr) : bool :=
  match p with None => true | Some _ => false end.

(** [struct UnRefNode]: both members are default-initialised to [nullptr]. *)
Record UnRefNode : Type := mkUnRefNode {
  prev_node : ptr;
  next_node : ptr
}.

Definition UnRefNode_default : UnRefNode := mkUnRefNode None None.

#[export] Instance UnRefNode_eq_dec : EqDecision UnRefNode.
Proof. solve_decision. Defined.

Abbreviation heap := (gmap loc UnRefNode).

(** [*p]: reading through a pointer. *)
Definition deref (p : ptr) : result loc :=
  match p with
  | Some l => Ok l
  | None => Fault NullDereference
  end.

Definition load (h : heap) (l : loc) : result UnRefNode :=
  match h !! l with
  | Some n => Ok n
  | None => Fault InvalidPointer
  end.

(** [l->prev_node = v] and [l->next_node = v]. *)
Definition store_prev (h : heap) (l : loc) (v : ptr) : result heap :=
  n ← load h l; Ok (<[l := mkUnRefNode v (next_node n)]> h).

Definition store_next (h : heap) (l : loc) (v : ptr) : result heap :=
  n ← load h l; Ok (<[l := mkUnRefNode (prev_node n) v]> h).

(** The condition both member functions assert: [(prev_node != nullptr) ==
    (next_node != nullptr)], "Should be both or none." *)
Definition both_or_none (n : UnRefNode) : bool :=
  Bool.eqb (negb (is_null (prev_node n))) (negb (is_null (next_node n))).

Definition is_linked (n : UnRefNode) : bool :=
  negb (is_null (prev_node n)) && negb (is_null (next_node n)).

(** [UnRefNode::linkAsUnreferenced(UnRefNode& origin)], with [this] the
    address of the receiver. *)
Definition linkAsUnreferenced (debug : bool) (h : heap) (this origin : loc)
  : result heap :=
  n ← load h this;
  _ ← CETL_DEBUG_ASSERT debug (both_or_none n);
  if is_null (prev_node n) && is_null (next_node n) then
    (* next_node = &origin; *)
    h1 ← store_next h this (Some origin);
    (* prev_node = origin.prev_node; *)
    o ← load h1 origin;
    h2 ← store_prev h1 this (prev_node o);
    (* origin.prev_node->next_node = this; *)
    o ← load h2 origin;
    p ← deref (prev_node o);
    h3 ← store_next h2 p (Some this);
    (* origin.prev_node = this; *)
    store_prev h3 origin (Some this)
  else Ok h.

(** [UnRefNode::unlinkIfReferenced()]. *)
Definition unlinkIfReferenced (debug : bool) (h : heap) (this : loc)
  : result heap :=
  n ← load h this;
  _ ← CETL_DEBUG_ASSERT debug (both_or_none n);
  if negb (is_null (prev_node n)) && negb (is_null (next_node n)) then
    (* prev_node->next_node = next_node; *)
    p ← deref (prev_node n);
    h1 ← store_next h p (next_node n);
    (* next_node->prev_node = prev_node; *)
    n1 ← load h1 this;
    q ← deref (next_node n1);
    h2 ← store_prev h1 q (prev_node n1);
    (* next_node = nullptr; *)
    h3 ← store_next h2 this None;
    (* prev_node = nullptr; *)
    store_prev h3 this None
  else Ok h.

(** ** The two calls in closed form *)

(** The store [linkAsUnreferenced] ends with on an unlinked receiver
    [this], given the node [o] at [origin], its [prev_node] [p] (other than
    [this]) and the node [np] there: the four assignments in one. *)
Definition linked_before (h : heap) (this origin p : loc) (o np : UnRefNode)
  : heap :=
  <[origin := mkUnRefNode (Some this)
                (if decide (p = origin) then Some this else next_node o)]>
    (<[p := mkUnRefNode (prev_node np) (Some this)]>
       (<[this := mkUnRefNode (Some p) (Some origin)]> h)).

(** The store [unlinkIfReferenced] ends with on a receiver [this] linked
    between [p] and [q], given the nodes [np] and [nq] there. *)
Definition unlinked_from (h : heap) (this p q : loc) (np nq : UnRefNode)
  : heap :=
  <[this := UnRefNode_default]>
    (<[q := mkUnRefNode (Some p)
              (if decide (q = p) then Some q else next_node nq)]>
       (<[p := mkUnRefNode (prev_node np) (Some q)]> h)).

(** ** The reference count *)

(** The data members [class SharedObject] adds to its [UnRefNode] base
    (the base subobject is the node stored at the object's address). *)
Record SharedObject : Type := mkSharedObject {
  ref_count_ : Z
}.

(** [ref_count_{0}] *)
Definition SharedObject_default : SharedObject := mkSharedObject 0.

Section RefCount.
(** The width of [std::size_t] in bits. *)
Variable w : positive.

Definition size_t_modulus : Z := 2 ^ Z.pos w.

(** A value of type [std::size_t]. *)
Definition size_t_range (o : SharedObject) : Prop :=
  0 <= ref_count_ o < size_t_modulus.

Definition isReferenced (o : SharedObject) : bool :=
  0 <? ref_count_ o.

Definition retain (o : SharedObject) : SharedObject :=
  mkSharedObject ((ref_count_ o + 1) mod size_t_modulus).

Definition release (debug : bool) (o : SharedObject)
  : result (SharedObject * bool) :=
  _ ← CETL_DEBUG_ASSERT debug (0 <? ref_count_ o);
  let o' := mkSharedObject ((ref_count_ o - 1) mod size_t_modulus) in
  Ok (o', ref_count_ o' =? 0).

(** [k] calls of [retain()] in a row. *)
Definition retain_times (k : N) (o : SharedObject) : SharedObject :=
  N.iter k retain o.
End RefCount.

(** ** Sequences of calls on one shared object *)

Inductive call : Type := CallRetain | CallRelease.

(** What a caller sees after a call: the value [release()] returned, if the
    call was one, and the value of [isReferenced()] right after it. *)
Record observation : Type := mkObservation {
  returned : option bool;
  referenced_after : bool
}.

#[export] Instance observation_eq_dec : EqDecision observation.
Proof. solve_decision. Defined.

Section CallSequences.
Variable w : positive.

Definition run_call (debug : bool) (c : call) (o : SharedObject)
  : result (SharedObject * observation) :=
  match c with
  | CallRetain =>
      let o' := retain w o in
      Ok (o', mkObservation None (isReferenced o'))
  | CallRelease =>
      '(o', b) ← release w debug o;
      Ok (o', mkObservation (Some b) (isReferenced o'))
  end.

Fixpoint run_calls (debug : bool) (cs : list call) (o : SharedObject)
  : result (SharedObject * list observation) :=
  match cs with
  | [] => Ok (o, [])
  | c :: cs' =>
      '(o1, ob) ← run_call debug c o;
      '(o2, obs) ← run_calls debug cs' o1;
      Ok (o2, ob :: obs)
  end.
End CallSequences.

(** Retains minus releases. *)
Fixpoint balance (cs : list call) : Z :=
  match cs with
  | [] => 0
  | CallRetain :: cs' => 1 + balance cs'
  | CallRelease :: cs' => balance cs' - 1
  end.

(** How many calls of [release()] returned [true]. *)
Definition true_releases (obs : list observation) : nat :=
  length (filter (λ ob, returned ob = Some true) obs).

(** The observations an unbounded counter starting at [c] gives on the
    calls [cs]; the yardstick [run_calls] is compared with. *)
Fixpoint counter_observations (c : Z) (cs : list call) : list observation :=
  match cs with
  | [] => []
  | CallRetain :: cs' =>
      mkObservation None (0 <? c + 1) :: counter_observations (c + 1) cs'
  | CallRelease :: cs' =>
      mkObservation (Some (c - 1 =? 0)) (0 <? c - 1) :: counter_observations (c - 1) cs'
  end.

(** ** The list of unreferenced nodes *)

(** Invariant I1 on every node of a store. *)
Definition heap_I1 (h : heap) : Prop :=
  map_Forall (λ _ n, both_or_none n = true) h.

(** The neighbours of a linked node point back at it. *)
Definition points_back (h : heap) (l : loc) (n : UnRefNode) : Prop :=
  match prev_node n, next_node n with
  | None, None => True
  | Some p, Some q =>
      next_node <$> h !! p = Some (Some l) ∧ prev_node <$> h !! q = Some (Some l)
  | _, _ => False
  end.

#[export] Instance points_back_dec h l n : Decision (points_back h l n).
Proof. unfold points_back. destruct (prev_node n), (next_node n); apply _. Defined.

Definition well_linked (h : heap) : Prop := map_Forall (points_back h) h.

(** Following [next_node] from [cur] until [anchor] comes up, at most
    [fuel] nodes long. *)
Fixpoint walk (fuel : nat) (h : heap) (anchor cur : loc) : result (list loc) :=
  if decide (cur = anchor) then Ok []
  else match fuel with
       | O => Fault OutOfFuel
       | S fuel' =>
           n ← load h cur;
           nx ← deref (next_node n);
           rest ← walk fuel' h anchor nx;
           Ok (cur :: rest)
       end.

(** The nodes met from the anchor's [next_node] round to the anchor. *)
Definition traverse (fuel : nat) (h : heap) (anchor : loc) : result (list loc) :=
  a ← load h anchor;
  first ← deref (next_node a);
  walk fuel h anchor first.

(** [chain h p xs e]: the nodes [xs] are linked one after the other,
    the first one coming after [p] and the last one before [e]. *)
Fixpoint chain (h : heap) (p : loc) (xs : list loc) (e : loc) : Prop :=
  match xs with
  | [] => True
  | x :: xs' =>
      h !! x = Some (mkUnRefNode (Some p) (Some (default e (head xs'))))
      ∧ chain h x xs' e
  end.

#[export] Instance chain_dec h p xs e : Decision (chain h p xs e).
Proof. revert p. induction xs as [|x xs IH]; intros p; simpl; apply _. Defined.

(** A ledger: the anchor [a] and the nodes [L], in this order, form one
    circular doubly linked list. *)
Definition is_ledger (h : heap) (a : loc) (L : list loc) : Prop :=
  NoDup (a :: L)
  ∧ h !! a = Some (mkUnRefNode (Some (default a (last L))) (Some (default a (head L))))
  ∧ chain h a L a.

#[export] Instance is_ledger_dec h a L : Decision (is_ledger h a L).
Proof. unfold is_ledger. apply _. Defined.

(** Linking the nodes [xs] one after the other into the ledger of [a]. *)
Fixpoint link_all (debug : bool) (h : heap) (a : loc) (xs : list loc)
  : result heap :=
  match xs with
  | [] => Ok h
  | x :: xs' => h' ← linkAsUnreferenced debug h x a; link_all debug h' a xs'
  end.

(** Any sequence of the two member functions, on any receivers. *)
Inductive node_op : Type :=
  | OpLink (this origin : loc)
  | OpUnlink (this : loc).

Definition run_node_op (debug : bool) (h : heap) (op : node_op) : result heap :=
  match op with
  | OpLink this origin => linkAsUnreferenced debug h this origin
  | OpUnlink this => unlinkIfReferenced debug h this
  end.

Fixpoint run_node_ops (debug : bool) (h : heap) (ops : list node_op)
  : result heap :=
  match ops with
  | [] => Ok h
  | op :: ops' => h' ← run_node_op debug h op; run_node_ops debug h' ops'
  end.

(** ** Creation from a memory resource *)

Section CreateWithPmr.
Context {Memory Concrete Failure Args : Type}.

(** [PmrAllocator<Concrete>{&memory}.allocate(1)] (the allocator is
    declared in [libcyphal/types.hpp], not among the sources): storage for
    one [Concrete] or [nullptr], and the memory resource afterwards. *)
Variable allocate : Memory → ptr * Memory.
(** [allocator.construct(concrete, args...)]: the object built in place. *)
Variable construct : Args → Concrete.
(** [MemoryError{}] as a value of the caller's [Failure] type. *)
Variable MemoryError : Failure.

Record pmr_state : Type := mkPmrState {
  memory : Memory;
  objects : gmap loc Concrete;
  out_failure : option Failure
}.

Definition createWithPmr (st : pmr_state) (args : Args) : ptr * pmr_state :=
  let '(concrete, m) := allocate (memory st) in
  match concrete with
  | Some c =>
      (Some c, mkPmrState m (<[c := construct args]> (objects st)) (out_failure st))
  | None =>
      (None, mkPmrState m (objects st) (Some MemoryError))
  end.
End CreateWithPmr.

Arguments pmr_state : clear implicits.
Arguments mkPmrState {Memory Concrete Failure} _ _ _.

(** A memory resource that counts the calls of [allocate] made on it. *)
Definition counted {Memory} (allocate : Memory → ptr * Memory)
  : Memory * nat → ptr * (Memory * nat) :=
  λ '(m, k), let '(p, m') := allocate m in (p, (m', S k)).

(** An arena that hands out fresh addresses and fails once its budget of
    allocations is used up. *)
Record arena : Type := mkArena {
  next_free : loc;
  budget : nat
}.

Definition arena_allocate (m : arena) : ptr * arena :=
  match budget m with
  | O => (None, m)
  | S b => (Some (next_free m), mkArena (Pos.succ (next_free m)) b)
  end.

(** ** The executor's spin and the ledger drain *)

(** The executor and the drain of the ledger are in files of the
    repository other than [shared_object.hpp] (the driver example only
    calls [executor_.spinOnce()]).  The definitions of this part follow
    the specification, sections 3 and 4.1 to 4.3, and run the two member
    functions above where the specification names them. *)

(** Modelled from the spec: the executor's callbacks are missing; what one
    does to shared objects goes through handles (sections 4.1 and 6).
    Acquiring a reference calls [retain()] and [unlinkIfReferenced()] (an
    object "re-retained before the Ledger drains it"); dropping one calls
    [release()], and "when true, the caller must call
    [linkAsUnreferenced]" on the ledger's anchor. *)
Inductive handle_op : Type :=
  | Acquire (x : loc)
  | Drop (x : loc).

(** Modelled from the spec: the missing ExecutorCallback (section 3), "a
    registered unit of deferred work with a scheduled due time, optional
    recurring period, and a cancellation flag"; callbacks here fire once. *)
Record ExecutorCallback : Type := mkExecutorCallback {
  due_time : Z;
  cancelled : bool;
  body : list handle_op
}.

(** Modelled from the spec: the missing SpinResult (section 3). *)
Record SpinResult : Type := mkSpinResult {
  worst_lateness : Z;
  next_exec_time : option Z
}.

(** What happens during a spin, in order: a callback frame is entered and
    left, a handle acquires an object, a [release()] returns [true], an
    object's [destroy()] is called. *)
Inductive event : Type :=
  | EvEnter (cb : ExecutorCallback)
  | EvLeave (cb : ExecutorCallback)
  | EvAcquired (x : loc)
  | EvLastRelease (x : loc)
  | EvDestroy (x : loc).

(** The live objects: the [UnRefNode] base of each, and the reference
    count of the shared ones. *)
Record world : Type := mkWorld {
  nodes : heap;
  shared : gmap loc SharedObject
}.

(** Modelled from the spec: the missing executor (section 3), which "owns
    the Ledger and all registered ExecutorCallbacks", the callbacks in
    registration order. *)
Record Executor : Type := mkExecutor {
  now : Z;
  callbacks : list ExecutorCallback;
  live : world;
  unreferenced_nodes : loc
}.

Section Spin.
Variable w : positive.
Variable debug : bool.

(** Reading the [SharedObject] at [x]. *)
Definition load_shared (s : world) (x : loc) : result SharedObject :=
  match shared s !! x with
  | Some o => Ok o
  | None => Fault InvalidPointer
  end.

(** Modelled from the spec: the missing handle operations (section 4.1),
    with [a] the ledger's anchor. *)
Definition run_handle_op (a : loc) (s : world) (op : handle_op)
  : result (world * list event) :=
  match op with
  | Acquire x =>
      o ← load_shared s x;
      h ← unlinkIfReferenced debug (nodes s) x;
      Ok (mkWorld h (<[x := retain w o]> (shared s)), [EvAcquired x])
  | Drop x =>
      o ← load_shared s x;
      '(o', last) ← release w debug o;
      if last : bool then
        h ← linkAsUnreferenced debug (nodes s) x a;
        Ok (mkWorld h (<[x := o']> (shared s)), [EvLastRelease x])
      else Ok (mkWorld (nodes s) (<[x := o']> (shared s)), [])
  end.

(** Modelled from the spec: the body of one callback, operation by
    operation; the events of the operations follow one another. *)
Fixpoint run_body (a : loc) (s : world) (ops : list handle_op)
  : result (world * list event) :=
  match ops with
  | [] => Ok (s, [])
  | op :: ops' =>
      '(s1, t1) ← run_handle_op a s op;
      '(s2, t2) ← run_body a s1 ops';
      Ok (s2, t1 ++ t2)
  end.

(** Modelled from the spec: firing the due callbacks one after the other
    (section 4.3); a faulting callback "is a fatal defect, propagated up". *)
Fixpoint run_callbacks (a : loc) (s : world) (cbs : list ExecutorCallback)
  : result (world * list event) :=
  match cbs with
  | [] => Ok (s, [])
  | cb :: cbs' =>
      '(s1, t1) ← run_body a s (body cb);
      '(s2, t2) ← run_callbacks a s1 cbs';
      Ok (s2, EvEnter cb :: t1 ++ EvLeave cb :: t2)
  end.

(** Modelled from the spec: the missing [drainAll()] (section 4.2):
    "iterates from anchor's next until the anchor is reached again, for
    each node: detach it, cast to ShareableResource, call destroy()", the
    anchor re-read on each step; [destroy()] gives the object's storage
    back. *)
Fixpoint drainAll (fuel : nat) (a : loc) (s : world)
  : result (world * list event) :=
  n ← load (nodes s) a;
  first ← deref (next_node n);
  if decide (first = a) then Ok (s, [])
  else match fuel with
       | O => Fault OutOfFuel
       | S fuel' =>
           h ← unlinkIfReferenced debug (nodes s) first;
           '(s', t) ← drainAll fuel' a
                        (mkWorld (delete first h) (delete first (shared s)));
           Ok (s', EvDestroy first :: t)
       end.
End Spin.

(** Modelled from the spec: the order the due callbacks fire in (section
    4.3): "in due-time order (ties broken by registration order)". *)
Fixpoint insert_by_due (cb : ExecutorCallback) (cbs : list ExecutorCallback)
  : list ExecutorCallback :=
  match cbs with
  | [] => [cb]
  | c :: cbs' =>
      if due_time cb <=? due_time c then cb :: c :: cbs'
      else c :: insert_by_due cb cbs'
  end.

Definition sort_by_due (cbs : list ExecutorCallback) : list ExecutorCallback :=
  foldr insert_by_due [] cbs.

Definition is_due (t : Z) (cb : ExecutorCallback) : bool :=
  negb (cancelled cb) && (due_time cb <=? t).

Definition is_pending (t : Z) (cb : ExecutorCallback) : bool :=
  negb (cancelled cb) && negb (due_time cb <=? t).

(** Modelled from the spec: the callbacks [spinOnce()] fires (section 4.3),
    "every callback whose due time has passed", cancelled ones left out. *)
Definition due_callbacks (ex : Executor) : list ExecutorCallback :=
  sort_by_due (filter (λ cb, is_due (now ex) cb = true) (callbacks ex)).

Definition min_due (cbs : list ExecutorCallback) : option Z :=
  foldr (λ cb m, Some (match m with
                       | Some t => Z.min (due_time cb) t
                       | None => due_time cb
                       end)) None cbs.

(** Modelled from the spec: the missing [spinOnce()] (section 4.3):
    "executes every callback whose due time has passed, in due-time order,
    updates the running worst_lateness as the maximum observed (now −
    due_time) across all callbacks fired in this call, computes
    next_exec_time as the minimum due time among still-pending callbacks
    (or absent if none pending), and — before returning — invokes a full
    Ledger drain".  The drain follows at most as many links as there are
    live nodes. *)
Definition spinOnce (w : positive) (debug : bool) (ex : Executor)
  : result (Executor * SpinResult * list event) :=
  let due := due_callbacks ex in
  let pending := filter (λ cb, is_pending (now ex) cb = true) (callbacks ex) in
  '(s1, t1) ← run_callbacks w debug (unreferenced_nodes ex) (live ex) due;
  '(s2, t2) ← drainAll debug (size (nodes s1)) (unreferenced_nodes ex) s1;
  Ok (mkExecutor (now ex) pending s2 (unreferenced_nodes ex),
      mkSpinResult (foldr Z.max 0 (map (λ cb, now ex - due_time cb) due))
                   (min_due pending),
      t1 ++ t2).

(** The objects whose last reference was released and not taken again. *)
Definition awaiting_step (W : gset loc) (e : event) : gset loc :=
  match e with
  | EvLastRelease x => W ∪ {[x]}
  | EvAcquired x => W ∖ {[x]}
  | _ => W
  end.

Definition awaiting (W : gset loc) (t : list event) : gset loc :=
  foldl awaiting_step W t.

(** The callback frames on the stack after the events [t], [d] of them
    before. *)
Fixpoint open_frames (d : nat) (t : list event) : nat :=
  match t with
  | [] => d
  | EvEnter _ :: t' => open_frames (S d) t'
  | EvLeave _ :: t' => open_frames (pred d) t'
  | _ :: t' => open_frames d t'
  end.

(** The state a spin starts from and keeps between handle operations:
    the anchor [a] heads a ledger of the nodes [L], the anchor is no shared
    object, and a shared object outside the ledger is unlinked. *)
Definition world_ok (a : loc) (s : world) (L : list loc) : Prop :=
  is_ledger (nodes s) a L
  ∧ shared s !! a = None
  ∧ ∀ x, is_Some (shared s !! x) → x ∉ L → nodes s !! x = Some UnRefNode_default.

(** No [destroy()] among the events. *)
Definition no_destroy (t : list event) : Prop :=
  ∀ x, EvDestroy x ∉ t.

(** ** Example stores *)

(** An anchor at address 1, self-linked, and three default-constructed
    nodes. *)
Definition empty_ledger_store : heap :=
  <[1%positive := mkUnRefNode (Some 1%positive) (Some 1%positive)]>
    (<[2%positive := UnRefNode_default]>
       (<[3%positive := UnRefNode_default]>
          (<[4%positive := UnRefNode_default]> ∅))).

(** The anchor at address 1 with the node at address 2 linked into it. *)
Definition one_node_ledger_store : heap :=
  <[1%positive := mkUnRefNode (Some 2%positive) (Some 2%positive)]>
    (<[2%positive := mkUnRefNode (Some 1%positive) (Some 1%positive)]>
       (<[3%positive := UnRefNode_default]> ∅)).

(** Nothing but default-constructed nodes. *)
Definition default_store : heap :=
  <[1%positive := UnRefNode_default]> (<[2%positive := UnRefNode_default]> ∅).

(** Every node satisfies I1, yet the anchor at address 1 points at the
    unlinked node at address 2. *)
Definition stray_store : heap :=
  <[1%positive := mkUnRefNode (Some 2%positive) (Some 2%positive)]>
    (<[2%positive := UnRefNode_default]>
       (<[3%positive := UnRefNode_default]> ∅)).

(** Link two nodes, take the first out, put it back in at the tail, then
    unlink the anchor itself. *)
Definition example_node_ops : list node_op :=
  [OpLink 2 1; OpLink 3 1; OpUnlink 2; OpLink 2 1; OpLink 2 1; OpUnlink 1].

(** The store a computation ends with ([∅] when it faults). *)
Definition final_store (r : result heap) : heap :=
  match r with Ok h => h | Fault _ => ∅ end.

(** An executor at time 10 with an empty ledger, two shared objects (one
    reference to the object at address 2, two to the one at address 3) and
    three callbacks: one due at 5 that takes and drops references to
    object 3, one due at 0 that drops the last reference to object 2 and a
    reference to object 3, and one due at 20. *)
Definition example_executor : Executor :=
  mkExecutor 10
    [mkExecutorCallback 5 false [Acquire 3; Drop 3; Drop 3];
     mkExecutorCallback 0 false [Drop 2; Drop 3];
     mkExecutorCallback 20 false [Drop 4]]
    (mkWorld empty_ledger_store
       (<[2%positive := mkSharedObject 1]>
          (<[3%positive := mkSharedObject 2]> ∅)))
    1.

(** An executor at time 10 with an empty ledger and one shared object,
    at address 2, with one reference: the callback due at 0 drops that
    reference, the callback due at 5 takes a reference to the object
    again. *)
Definition resurrecting_executor : Executor :=
  mkExecutor 10
    [mkExecutorCallback 0 false [Drop 2];
     mkExecutorCallback 5 false [Acquire 2]]
    (mkWorld empty_ledger_store (<[2%positive := mkSharedObject 1]> ∅))
    1.

(** What the due callbacks of [example_executor] leave behind. *)
Definition example_callbacks_outcome : world * list event :=
  match run_callbacks 64 true (unreferenced_nodes example_executor)
          (live example_executor) (due_callbacks example_executor) with
  | Ok r => r
  | Fault _ => (live example_executor, [])
  end.

(** ** Destruction through a memory resource *)

Section DestroyWithPmr.
Context {Memory Concrete Failure : Type}.

(** [concrete->~Concrete()]: what the finalizer of the object does to the
    memory resource (the storage the object itself owns). *)
Variable finalize : Concrete → Memory → Memory.
(** [PmrAllocator<Concrete>{&memory}.deallocate(concrete, 1)]. *)
Variable deallocate : loc → Memory → Memory.

(** [SharedObject::destroyWithPmr<Concrete>(concrete, memory)]: the
    assertion, the explicit destructor call, then the deallocation. *)
Definition destroyWithPmr (debug : bool)
    (st : pmr_state Memory Concrete Failure) (concrete : ptr)
  : result (pmr_state Memory Concrete Failure) :=
  _ ← CETL_DEBUG_ASSERT debug (negb (is_null concrete));
  c ← deref concrete;
  match objects st !! c with
  | Some obj =>
      Ok (mkPmrState (deallocate c (finalize obj (memory st)))
            (delete c (objects st)) (out_failure st))
  | None => Fault InvalidPointer
  end.
End DestroyWithPmr.

(** Giving storage back to the example arena. *)
Definition arena_deallocate (c : loc) (m : arena) : arena :=
  mkArena (next_free m) (S (budget m)).

(** ** More example stores *)

(** The anchor at address 1 with the nodes 2, 3 and 4 linked in this
    order, and an unlinked node at address 5. *)
Definition three_node_ledger_store : heap :=
  <[1%positive := mkUnRefNode (Some 4%positive) (Some 2%positive)]>
    (<[2%positive := mkUnRefNode (Some 1%positive) (Some 3%positive)]>
       (<[3%positive := mkUnRefNode (Some 2%positive) (Some 4%positive)]>
          (<[4%positive := mkUnRefNode (Some 3%positive) (Some 1%positive)]>
             (<[5%positive := UnRefNode_default]> ∅)))).

(** A self-linked anchor at address 1 and, at address 2, a node with a
    null [prev_node] and a non-null [next_node]. *)
Definition mixed_store : heap :=
  <[1%positive := mkUnRefNode (Some 1%positive) (Some 1%positive)]>
    (<[2%positive := mkUnRefNode None (Some 1%positive)]> ∅).

(** * Properties *)

(** ** Tactics *)

(** Settling the address comparisons a lookup leaves behind. *)
Ltac settle_decides :=
  repeat match goal with
    | |- context [decide (?a = ?b)] =>
        first [ rewrite (decide_True (P := a = b)) by (done || congruence)
              | rewrite (decide_False (P := a = b)) by (done || congruence) ]
    end.

(** Case analysis on every address comparison in sight. *)
Ltac split_decides lookup_lemma :=
  repeat first
    [ progress simpl in *
    | rewrite lookup_lemma
    | match goal with
      | |- context [decide (?a = ?b)] => destruct (decide (a = b)); subst
      end ].

(** Closing a case once the comparisons are settled. *)
Ltac close_case :=
  first [ done | congruence | f_equal; done | f_equal; congruence ].

(** ** The reference count *)

Section RefCountFacts.
Variable w : positive.

Lemma size_t_modulus_pos : 1 < size_t_modulus w.
Proof.
  unfold size_t_modulus.
  change 1 with (2 ^ 0). apply Z.pow_lt_mono_r; lia.
Qed.

Lemma retain_in_range o : size_t_range w (retain w o).
Proof.
  unfold size_t_range, retain; simpl.
  apply Z.mod_pos_bound. pose proof size_t_modulus_pos. lia.
Qed.

Lemma retain_below o :
  0 <= ref_count_ o → ref_count_ o + 1 < size_t_modulus w →
  retain w o = mkSharedObject (ref_count_ o + 1).
Proof.
  intros H0 H1. unfold retain. f_equal. apply Z.mod_small. lia.
Qed.

Lemma release_above debug o :
  0 < ref_count_ o < size_t_modulus w →
  release w debug o
  = Ok (mkSharedObject (ref_count_ o - 1), ref_count_ o - 1 =? 0).
Proof.
  intros [H0 H1]. unfold release, CETL_DEBUG_ASSERT.
  assert ((0 <? ref_count_ o) = true) as -> by (apply Z.ltb_lt; lia).
  rewrite andb_false_r. simpl.
  rewrite Z.mod_small by lia. reflexivity.
Qed.

Lemma retain_times_count k o :
  size_t_range w o →
  ref_count_ (retain_times w k o)
  = (ref_count_ o + Z.of_N k) mod size_t_modulus w.
Proof.
  intros Ho. unfold retain_times.
  induction k as [|k IH] using N.peano_ind.
  - simpl. rewrite Z.add_0_r, Z.mod_small; [reflexivity | exact Ho].
  - rewrite N.iter_succ. unfold retain at 1. simpl. rewrite IH.
    rewrite N2Z.inj_succ.
    rewrite Zplus_mod_idemp_l. f_equal. lia.
Qed.
End RefCountFacts.

(** C1: for a count [n > 0], [release()] leaves the count at [n - 1] and
    returns [true] exactly when [n = 1], that is when the count reached
    zero on this call. *)
Theorem release_decrements_and_reports_zero (w : positive) (debug : bool)
    (o : SharedObject) :
  0 < ref_count_ o < size_t_modulus w →
  ∃ o' b,
    release w debug o = Ok (o', b)
    ∧ ref_count_ o' = ref_count_ o - 1
    ∧ (b = true ↔ ref_count_ o' = 0)
    ∧ (b = true ↔ ref_count_ o = 1).
Proof.
  intros H. eexists _, _. split; [apply release_above, H |].
  simpl. rewrite Z.eqb_eq. repeat split; lia.
Qed.

Lemma release_decrements_and_reports_zero_witness :
  ∃ o' b,
    release 64 true (mkSharedObject 1) = Ok (o', b)
    ∧ ref_count_ o' = ref_count_ (mkSharedObject 1) - 1
    ∧ (b = true ↔ ref_count_ o' = 0)
    ∧ (b = true ↔ ref_count_ (mkSharedObject 1) = 1).
Proof.
  apply (release_decrements_and_reports_zero 64 true (mkSharedObject 1)).
  unfold size_t_modulus. simpl. lia.
Defined.

(** C10: the count is arithmetic modulo [2^w]: [retain()] adds one modulo
    [2^w] with no check, so after [2^w] calls of [retain()] on a fresh
    object the count is back at zero and [isReferenced()] is [false]. *)
Theorem retain_wraps_around (w : positive) :
  (∀ o, ref_count_ (retain w o) = (ref_count_ o + 1) mod 2 ^ Z.pos w)
  ∧ ref_count_ (retain_times w (Z.to_N (2 ^ Z.pos w)) SharedObject_default) = 0
  ∧ isReferenced (retain_times w (Z.to_N (2 ^ Z.pos w)) SharedObject_default)
    = false
  ∧ isReferenced (retain_times w (Z.to_N (2 ^ Z.pos w - 1)) SharedObject_default)
    = true.
Proof.
  pose proof (size_t_modulus_pos w) as HM. unfold size_t_modulus in HM.
  assert (size_t_range w SharedObject_default) as H0.
  { unfold size_t_range, size_t_modulus. simpl. lia. }
  assert (ref_count_ (retain_times w (Z.to_N (2 ^ Z.pos w)) SharedObject_default) = 0)
    as Hz.
  { rewrite retain_times_count by exact H0. unfold size_t_modulus. simpl.
    rewrite Z2N.id by lia. apply Z_mod_same_full. }
  split; [reflexivity |]. split; [exact Hz |]. split.
  - unfold isReferenced. rewrite Hz. reflexivity.
  - unfold isReferenced. rewrite retain_times_count by exact H0.
    unfold size_t_modulus. simpl. rewrite Z2N.id by lia.
    rewrite Z.mod_small by lia. apply Z.ltb_lt. lia.
Qed.

(** ** Sequences of [retain()] and [release()] *)

Section CallSequenceFacts.
Variable w : positive.

(** As long as the count an unbounded counter would show stays a
    [std::size_t], the object shows the same. *)
Lemma run_calls_counter debug cs : ∀ o,
  size_t_range w o →
  (∀ k, (1 <= k <= length cs)%nat →
        0 <= ref_count_ o + balance (take k cs) < size_t_modulus w) →
  run_calls w debug cs o
  = Ok (mkSharedObject (ref_count_ o + balance cs),
        counter_observations (ref_count_ o) cs).
Proof.
  unfold size_t_range.
  induction cs as [|c cs IH]; intros [n] Hn Hk; simpl in *.
  - rewrite Z.add_0_r. reflexivity.
  - pose proof (Hk 1%nat ltac:(lia)) as H1. simpl in H1. rewrite ?take_0 in H1.
    assert (∀ k, (1 <= k <= length cs)%nat →
              0 <= (n + balance [c]) + balance (take k cs) < size_t_modulus w) as Hk'.
    { intros k Hlen. specialize (Hk (S k) ltac:(lia)). simpl in Hk.
      destruct c; simpl; lia. }
    destruct c; simpl in H1, Hk'; unfold run_call.
    + rewrite (retain_below w) by (simpl; lia). simpl.
      rewrite IH; simpl; [| lia | exact Hk'].
      unfold isReferenced; simpl. do 3 f_equal. lia.
    + rewrite (release_above w) by (simpl; lia). simpl.
      rewrite IH; simpl; [| lia | ].
      * unfold isReferenced; simpl. do 3 f_equal. lia.
      * intros k Hlen. specialize (Hk' k Hlen). lia.
Qed.
End CallSequenceFacts.

Lemma balance_app xs ys : balance (xs ++ ys) = balance xs + balance ys.
Proof. induction xs as [|[] xs IH]; simpl; lia. Qed.

Lemma balance_take_S cs i c :
  cs !! i = Some c → balance (take (S i) cs) = balance (take i cs) + balance [c].
Proof. intros H. rewrite (take_S_r _ _ _ H). apply balance_app. Qed.

Lemma counter_observations_length cs : ∀ c,
  length (counter_observations c cs) = length cs.
Proof. induction cs as [|[] cs IH]; intros c; simpl; auto. Qed.

(** The [i]-th observation depends on the balance of the first [i + 1]
    calls only. *)
Lemma counter_observations_lookup cs : ∀ c i ob,
  counter_observations c cs !! i = Some ob →
  referenced_after ob = (0 <? c + balance (take (S i) cs))
  ∧ (returned ob = Some true ↔
     cs !! i = Some CallRelease ∧ c + balance (take (S i) cs) = 0).
Proof.
  induction cs as [|x cs IH]; intros c i ob Hob; [discriminate |].
  destruct i as [|i].
  - destruct x; simpl in Hob; injection Hob as <-; simpl; rewrite ?take_0; simpl.
    + split; [f_equal; lia |]. split; [discriminate | intros [? _]; discriminate].
    + split; [f_equal; lia |]. split.
      * intros [= H]. apply Z.eqb_eq in H. split; [reflexivity | lia].
      * intros [_ H]. do 2 f_equal. apply Z.eqb_eq. lia.
  - destruct x; simpl in Hob; apply IH in Hob as [H1 H2]; simpl.
    + rewrite H1, H2. split; [f_equal; lia |].
      split; intros [? ?]; split; auto; lia.
    + rewrite H1, H2. split; [f_equal; lia |].
      split; intros [? ?]; split; auto; lia.
Qed.

(** Releases that return [true] are counted by the prefixes whose balance
    is back at zero. *)
Lemma true_releases_positive_run cs : ∀ c,
  0 < c →
  (∀ k, (1 <= k < length cs)%nat → 0 < c + balance (take k cs)) →
  c + balance cs = 0 →
  true_releases (counter_observations c cs) = 1%nat.
Proof.
  induction cs as [|x cs IH]; intros c Hc Hk Hend; simpl in *; [lia |].
  unfold true_releases in *.
  destruct cs as [|y cs].
  - destruct x; simpl in *; [lia |].
    rewrite filter_cons_True; [reflexivity |].
    simpl. do 2 f_equal. apply Z.eqb_eq. lia.
  - pose proof (Hk 1%nat ltac:(simpl; lia)) as H1. simpl in H1.
    destruct x; simpl in H1.
    + rewrite filter_cons_False by (simpl; discriminate).
      apply IH; [lia | | lia].
      intros k Hlen. specialize (Hk (S k) ltac:(simpl in *; lia)).
      simpl in Hk. lia.
    + rewrite filter_cons_False.
      * apply IH; [lia | | lia].
        intros k Hlen. specialize (Hk (S k) ltac:(simpl in *; lia)).
        simpl in Hk. lia.
      * simpl. intros [= H]. apply Z.eqb_eq in H. lia.
Qed.

(** C4 (as amended): on a fresh object, take calls whose balance (retains
    minus releases) is positive and below [2^w] after every non-empty
    proper prefix and zero at the end.  Then every call succeeds,
    [isReferenced()] is [true] after each call but the last and [false]
    after the last, and [release()] returns [true] exactly once, on the
    last call. *)
Theorem reference_symmetry (w : positive) (debug : bool) (cs : list call) :
  cs ≠ [] →
  (∀ k, (1 <= k < length cs)%nat →
        0 < balance (take k cs) < size_t_modulus w) →
  balance cs = 0 →
  ∃ obs,
    run_calls w debug cs SharedObject_default = Ok (SharedObject_default, obs)
    ∧ length obs = length cs
    ∧ (∀ i ob, obs !! i = Some ob →
         referenced_after ob = bool_decide (S i < length cs)%nat)
    ∧ (∀ i ob, obs !! i = Some ob →
         returned ob = Some true ↔ S i = length cs)
    ∧ true_releases obs = 1%nat.
Proof.
  intros Hne Hk Hend.
  pose proof (size_t_modulus_pos w) as HM.
  exists (counter_observations 0 cs).
  assert (∀ k, (1 <= k <= length cs)%nat →
               0 <= balance (take k cs) < size_t_modulus w) as Hall.
  { intros k Hlen. destruct (decide (k = length cs)) as [->|].
    - rewrite firstn_all, Hend. lia.
    - specialize (Hk k ltac:(lia)). lia. }
  split; [| split; [| split; [| split]]].
  - rewrite (run_calls_counter w debug cs SharedObject_default); simpl.
    + rewrite Hend. reflexivity.
    + unfold size_t_range. simpl. lia.
    + exact Hall.
  - apply counter_observations_length.
  - intros i ob Hob.
    pose proof (lookup_lt_Some _ _ _ Hob) as Hi.
    rewrite counter_observations_length in Hi.
    apply counter_observations_lookup in Hob as [-> _]. simpl.
    case_bool_decide as Hlt.
    + apply Z.ltb_lt. specialize (Hk (S i) ltac:(lia)). lia.
    + assert (S i = length cs) as -> by lia.
      rewrite firstn_all, Hend. reflexivity.
  - intros i ob Hob.
    pose proof (lookup_lt_Some _ _ _ Hob) as Hi.
    rewrite counter_observations_length in Hi.
    apply counter_observations_lookup in Hob as [_ ->]. simpl.
    split.
    + intros [_ Hz]. destruct (decide (S i = length cs)); [assumption |].
      specialize (Hk (S i) ltac:(lia)). lia.
    + intros Hlast. rewrite Hlast, firstn_all. split; [| exact Hend].
      (* the last call brings a positive balance to zero: it is a release *)
      destruct (cs !! i) as [c|] eqn:Hc; [| apply lookup_ge_None in Hc; lia].
      destruct c; [| reflexivity]. exfalso.
      assert (balance cs = balance (take i cs) + 1) as Hb.
      { rewrite <- (firstn_all cs) at 1. rewrite <- Hlast.
        rewrite (balance_take_S cs i CallRetain Hc). reflexivity. }
      destruct i as [|i].
      * simpl in Hb. lia.
      * specialize (Hk (S i) ltac:(lia)). lia.
  - destruct cs as [|x cs]; [congruence |].
    destruct cs as [|y cs]; [destruct x; simpl in Hend; lia |].
    pose proof (Hk 1%nat ltac:(simpl; lia)) as H1. simpl in H1. rewrite ?take_0 in H1.
    destruct x; simpl in H1; [| lia].
    change (balance (CallRetain :: y :: cs)) with (1 + balance (y :: cs)) in Hend.
    change (counter_observations 0 (CallRetain :: y :: cs))
      with (mkObservation None (0 <? 0 + 1) :: counter_observations 1 (y :: cs)).
    unfold true_releases. rewrite filter_cons_False by (simpl; discriminate).
    apply true_releases_positive_run; [lia | | lia].
    intros k Hlen. specialize (Hk (S k) ltac:(simpl in *; lia)).
    simpl in Hk. lia.
Qed.

Lemma reference_symmetry_witness :
  ∃ obs,
    run_calls 64 true [CallRetain; CallRetain; CallRelease; CallRelease]
      SharedObject_default = Ok (SharedObject_default, obs)
    ∧ length obs = 4%nat
    ∧ (∀ i ob, obs !! i = Some ob →
         referenced_after ob = bool_decide (S i < 4)%nat)
    ∧ (∀ i ob, obs !! i = Some ob → returned ob = Some true ↔ S i = 4%nat)
    ∧ true_releases obs = 1%nat.
Proof.
  apply (reference_symmetry 64 true
           [CallRetain; CallRetain; CallRelease; CallRelease]).
  - discriminate.
  - intros k Hk. unfold size_t_modulus.
    destruct k as [|[|[|[|k]]]]; simpl in *; lia.
  - reflexivity.
Defined.

(** C4 as stated fails: calls whose releases never outnumber the retains
    may bring the count to zero more than once.  On retain, release,
    retain, release the object is unreferenced after the second call
    already, and [release()] returns [true] twice. *)
Lemma reference_symmetry_counterexample :
  let cs := [CallRetain; CallRelease; CallRetain; CallRelease] in
  (∀ k, 0 <= balance (take k cs))
  ∧ run_calls 64 true cs SharedObject_default
    = Ok (SharedObject_default,
          [mkObservation None true; mkObservation (Some true) false;
           mkObservation None true; mkObservation (Some true) false])
  ∧ ¬ (∃ obs, run_calls 64 true cs SharedObject_default
              = Ok (SharedObject_default, obs)
              ∧ true_releases obs = 1%nat).
Proof.
  split; [| split].
  - intros k. destruct k as [|[|[|[|k]]]]; simpl; rewrite ?take_nil; simpl; lia.
  - vm_compute. reflexivity.
  - intros (obs & Hrun & Hone). vm_compute in Hrun.
    injection Hrun as <-. vm_compute in Hone. discriminate.
Qed.

(** ** Reads and writes of the store *)

Lemma assert_holds debug : CETL_DEBUG_ASSERT debug true = Ok tt.
Proof. destruct debug; reflexivity. Qed.

Lemma load_some (h : heap) l n : h !! l = Some n → load h l = Ok n.
Proof. unfold load. intros ->. reflexivity. Qed.

Lemma store_prev_some (h : heap) l n v :
  h !! l = Some n → store_prev h l v = Ok (<[l := mkUnRefNode v (next_node n)]> h).
Proof. unfold store_prev. intros H. rewrite (load_some _ _ _ H). reflexivity. Qed.

Lemma store_next_some (h : heap) l n v :
  h !! l = Some n → store_next h l v = Ok (<[l := mkUnRefNode (prev_node n) v]> h).
Proof. unfold store_next. intros H. rewrite (load_some _ _ _ H). reflexivity. Qed.

Lemma is_linked_both_or_none n : is_linked n = true → both_or_none n = true.
Proof. destruct n as [[p|] [q|]]; cbv; intros H; try discriminate; auto. Qed.

Lemma both_or_none_cases n :
  both_or_none n = true → n = UnRefNode_default ∨ is_linked n = true.
Proof. destruct n as [[p|] [q|]]; cbv; intros H; try discriminate; auto. Qed.

(** ** [linkAsUnreferenced] *)

(** On a linked receiver the body of the [if] is skipped. *)
Lemma linkAsUnreferenced_linked debug (h : heap) this origin n :
  h !! this = Some n → is_linked n = true →
  linkAsUnreferenced debug h this origin = Ok h.
Proof.
  intros Hn Hl. unfold linkAsUnreferenced.
  rewrite (load_some _ _ _ Hn). simpl.
  rewrite (is_linked_both_or_none _ Hl), assert_holds. simpl.
  destruct n as [[p|] [q|]]; cbv in Hl; try discriminate; reflexivity.
Qed.

Lemma linkAsUnreferenced_unlinked debug (h : heap) this origin p o np :
  h !! this = Some UnRefNode_default →
  h !! origin = Some o → prev_node o = Some p →
  h !! p = Some np → p ≠ this →
  linkAsUnreferenced debug h this origin
  = Ok (linked_before h this origin p o np).
Proof.
  intros Hthis Ho Hp Hnp Hpt.
  assert (origin ≠ this) as Hot.
  { intros ->. rewrite Hthis in Ho. injection Ho as <-. discriminate. }
  unfold linkAsUnreferenced, linked_before.
  rewrite (load_some _ _ _ Hthis). simpl. rewrite assert_holds. simpl.
  rewrite (store_next_some _ _ _ _ Hthis). simpl.
  rewrite (load_some _ origin o) by (rewrite lookup_insert_ne; auto). simpl.
  erewrite store_prev_some by apply lookup_insert_eq. simpl.
  rewrite insert_insert_eq.
  rewrite (load_some _ origin o) by (rewrite lookup_insert_ne; auto). simpl.
  rewrite Hp. simpl.
  rewrite (store_next_some _ p np) by (rewrite lookup_insert_ne; auto). simpl.
  destruct (decide (p = origin)) as [->|Hpo].
  - erewrite store_prev_some by apply lookup_insert_eq. reflexivity.
  - rewrite (store_prev_some _ origin o)
      by (rewrite !lookup_insert_ne; auto). reflexivity.
Qed.

Lemma linked_before_lookup (h : heap) this origin p o np l :
  linked_before h this origin p o np !! l
  = if decide (l = origin) then
      Some (mkUnRefNode (Some this)
              (if decide (p = origin) then Some this else next_node o))
    else if decide (l = p) then Some (mkUnRefNode (prev_node np) (Some this))
    else if decide (l = this) then Some (mkUnRefNode (Some p) (Some origin))
    else h !! l.
Proof.
  unfold linked_before. rewrite !lookup_insert.
  repeat case_decide; subst; congruence.
Qed.

(** With a null [origin.prev_node] the third assignment dereferences it. *)
Lemma linkAsUnreferenced_null_prev debug (h : heap) this origin o :
  h !! this = Some UnRefNode_default →
  h !! origin = Some o → prev_node o = None →
  linkAsUnreferenced debug h this origin = Fault NullDereference.
Proof.
  intros Hthis Ho Hp. unfold linkAsUnreferenced.
  rewrite (load_some _ _ _ Hthis). simpl. rewrite assert_holds. simpl.
  rewrite (store_next_some _ _ _ _ Hthis). simpl.
  destruct (decide (origin = this)) as [->|Hot].
  - erewrite load_some by apply lookup_insert_eq. simpl.
    erewrite store_prev_some by apply lookup_insert_eq. simpl.
    erewrite load_some by apply lookup_insert_eq. reflexivity.
  - rewrite (load_some _ origin o) by (rewrite lookup_insert_ne; auto). simpl.
    erewrite store_prev_some by apply lookup_insert_eq. simpl.
    rewrite (load_some _ origin o) by (rewrite !lookup_insert_ne; auto). simpl.
    rewrite Hp. reflexivity.
Qed.

(** C5: on a node already linked (both [prev_node] and [next_node]
    non-null) [linkAsUnreferenced] changes nothing: the store of all
    nodes, hence every [prev_node] and [next_node], is the same
    afterwards, whatever the anchor. *)
Theorem linkAsUnreferenced_idempotent (debug : bool) (h : heap)
    (this origin : loc) (n : UnRefNode) :
  h !! this = Some n →
  prev_node n ≠ None → next_node n ≠ None →
  linkAsUnreferenced debug h this origin = Ok h.
Proof.
  intros Hn Hp Hq. apply (linkAsUnreferenced_linked debug h this origin n Hn).
  destruct n as [[p|] [q|]]; simpl in *; try congruence; reflexivity.
Qed.

(** C9: on an unlinked receiver [linkAsUnreferenced] reads through
    [origin.prev_node] whatever its value: with a null one (as in a
    default-constructed anchor) the call dereferences [nullptr], so a call
    that goes through had an anchor with a non-null [prev_node], that is,
    given I1 on the anchor, a linked one. *)
Theorem linkAsUnreferenced_needs_linked_anchor (debug : bool) (h : heap)
    (this origin : loc) (o : UnRefNode) :
  h !! this = Some UnRefNode_default →
  h !! origin = Some o →
  (prev_node o = None →
   linkAsUnreferenced debug h this origin = Fault NullDereference)
  ∧ (o = UnRefNode_default →
     linkAsUnreferenced debug h this origin = Fault NullDereference)
  ∧ (is_ok (linkAsUnreferenced debug h this origin) = true →
     prev_node o ≠ None ∧ (both_or_none o = true → is_linked o = true)).
Proof.
  intros Hthis Ho.
  assert (prev_node o = None →
          linkAsUnreferenced debug h this origin = Fault NullDereference) as Hnull.
  { intros Hp. exact (linkAsUnreferenced_null_prev debug h this origin o Hthis Ho Hp). }
  split; [exact Hnull |]. split.
  - intros ->. apply Hnull. reflexivity.
  - intros Hok.
    assert (prev_node o ≠ None) as Hp.
    { intros Hp. rewrite (Hnull Hp) in Hok. discriminate. }
    split; [exact Hp |].
    destruct o as [[p|] [q|]]; simpl in Hp; try congruence;
      cbv; intros; try discriminate; reflexivity.
Qed.

Lemma linkAsUnreferenced_idempotent_witness :
  linkAsUnreferenced true one_node_ledger_store 2 1 = Ok one_node_ledger_store.
Proof.
  apply (linkAsUnreferenced_idempotent true one_node_ledger_store 2 1
           (mkUnRefNode (Some 1%positive) (Some 1%positive))).
  - reflexivity.
  - discriminate.
  - discriminate.
Defined.

Lemma linkAsUnreferenced_needs_linked_anchor_witness :
  linkAsUnreferenced true default_store 2 1 = Fault NullDereference.
Proof.
  destruct (linkAsUnreferenced_needs_linked_anchor true default_store 2 1
              UnRefNode_default) as (_ & Hdefault & _).
  - reflexivity.
  - reflexivity.
  - apply Hdefault. reflexivity.
Defined.

(** ** [unlinkIfReferenced] *)

Lemma unlinkIfReferenced_unlinked debug (h : heap) this :
  h !! this = Some UnRefNode_default →
  unlinkIfReferenced debug h this = Ok h.
Proof.
  intros Hn. unfold unlinkIfReferenced.
  rewrite (load_some _ _ _ Hn). simpl. rewrite assert_holds. reflexivity.
Qed.

Lemma unlinkIfReferenced_linked debug (h : heap) this p q np nq :
  h !! this = Some (mkUnRefNode (Some p) (Some q)) →
  h !! p = Some np → h !! q = Some nq →
  unlinkIfReferenced debug h this = Ok (unlinked_from h this p q np nq).
Proof.
  intros Hn Hp Hq. unfold unlinkIfReferenced, unlinked_from.
  rewrite (load_some _ _ _ Hn). simpl. rewrite assert_holds. simpl.
  rewrite (store_next_some _ _ _ _ Hp). simpl.
  set (h1 := <[p := mkUnRefNode (prev_node np) (Some q)]> h).
  assert (h1 !! this = Some (mkUnRefNode (Some p) (Some q))) as Hn1.
  { unfold h1. rewrite lookup_insert. case_decide; [| exact Hn].
    subst p. rewrite Hn in Hp. injection Hp as <-. reflexivity. }
  rewrite (load_some _ _ _ Hn1). simpl.
  assert (h1 !! q = Some (if decide (q = p)
                          then mkUnRefNode (prev_node np) (Some q) else nq)) as Hq1.
  { unfold h1. rewrite lookup_insert. repeat case_decide; congruence. }
  rewrite (store_prev_some _ _ _ _ Hq1). simpl.
  set (h2 := <[q := _]> h1).
  assert (is_Some (h2 !! this)) as [n2 Hn2].
  { unfold h2. destruct (decide (q = this)) as [->|Hne].
    - rewrite lookup_insert_eq. eexists; reflexivity.
    - rewrite lookup_insert_ne, Hn1 by exact Hne. eexists; reflexivity. }
  rewrite (store_next_some _ _ _ _ Hn2). simpl.
  erewrite store_prev_some by apply lookup_insert_eq. simpl.
  rewrite insert_insert_eq. unfold h2. do 2 f_equal.
  case_decide; reflexivity.
Qed.

Lemma unlinked_from_lookup (h : heap) this p q np nq l :
  unlinked_from h this p q np nq !! l
  = if decide (l = this) then Some UnRefNode_default
    else if decide (l = q) then
      Some (mkUnRefNode (Some p) (if decide (q = p) then Some q else next_node nq))
    else if decide (l = p) then Some (mkUnRefNode (prev_node np) (Some q))
    else h !! l.
Proof.
  unfold unlinked_from. rewrite !lookup_insert.
  repeat case_decide; subst; congruence.
Qed.

(** Inverting one step of a computation. *)
Lemma bind_ok {A B} (r : result A) (k : A → result B) b :
  r ≫= k = Ok b → ∃ a, r = Ok a ∧ k a = Ok b.
Proof. destruct r as [a|f]; simpl; [eauto | discriminate]. Qed.

Lemma store_prev_ok (h h' : heap) l v :
  store_prev h l v = Ok h' →
  ∃ n, h !! l = Some n ∧ h' = <[l := mkUnRefNode v (next_node n)]> h.
Proof.
  unfold store_prev, load. destruct (h !! l) as [n|]; simpl; [| discriminate].
  intros [= <-]. eauto.
Qed.

Lemma store_next_ok (h h' : heap) l v :
  store_next h l v = Ok h' →
  ∃ n, h !! l = Some n ∧ h' = <[l := mkUnRefNode (prev_node n) v]> h.
Proof.
  unfold store_next, load. destruct (h !! l) as [n|]; simpl; [| discriminate].
  intros [= <-]. eauto.
Qed.

Lemma load_ok (h : heap) l n : load h l = Ok n → h !! l = Some n.
Proof. unfold load. destruct (h !! l); [congruence | discriminate]. Qed.

Lemma assert_ok debug c u :
  CETL_DEBUG_ASSERT debug c = Ok u → debug = false ∨ c = true.
Proof. destruct debug, c; simpl; auto; discriminate. Qed.

(** A call that goes through leaves its receiver unlinked or leaves the
    store alone. *)
Lemma unlinkIfReferenced_ok debug (h h' : heap) this :
  unlinkIfReferenced debug h this = Ok h' →
  ∃ n, h !! this = Some n
       ∧ (debug = false ∨ both_or_none n = true)
       ∧ (if is_linked n then h' !! this = Some UnRefNode_default else h' = h).
Proof.
  unfold unlinkIfReferenced. intros H.
  apply bind_ok in H as (n & Hn%load_ok & H).
  apply bind_ok in H as (u & Ha%assert_ok & H).
  exists n. split; [exact Hn |]. split; [exact Ha |].
  fold (is_linked n) in H. destruct (is_linked n); [| congruence].
  apply bind_ok in H as (p & _ & H).
  apply bind_ok in H as (h1 & _ & H).
  apply bind_ok in H as (n1 & _ & H).
  apply bind_ok in H as (q & _ & H).
  apply bind_ok in H as (h2 & _ & H).
  apply bind_ok in H as (h3 & (n3 & _ & ->)%store_next_ok & H).
  apply store_prev_ok in H as (n4 & Hn4 & ->).
  rewrite lookup_insert_eq in Hn4. injection Hn4 as <-.
  rewrite lookup_insert_eq. reflexivity.
Qed.

Lemma unlinkIfReferenced_twice debug (h h' : heap) this :
  unlinkIfReferenced debug h this = Ok h' →
  unlinkIfReferenced debug h' this = Ok h'.
Proof.
  intros H. pose proof H as H0.
  apply unlinkIfReferenced_ok in H as (n & Hn & Ha & Hl).
  destruct (is_linked n) eqn:El.
  - apply unlinkIfReferenced_unlinked, Hl.
  - subst h'. exact H0.
Qed.

(** Linking a node before [origin] and unlinking it again gives the store
    back, as long as the node before [origin] pointed at [origin]. *)
Lemma link_then_unlink debug (h : heap) this origin o p np :
  h !! this = Some UnRefNode_default →
  h !! origin = Some o → prev_node o = Some p →
  h !! p = Some np → next_node np = Some origin →
  unlinkIfReferenced debug (linked_before h this origin p o np) this = Ok h.
Proof.
  intros Hthis Ho Hp Hnp Hback.
  assert (p ≠ this) as Hpt.
  { intros ->. rewrite Hthis in Hnp. injection Hnp as <-. discriminate. }
  assert (origin ≠ this) as Hot.
  { intros ->. rewrite Hthis in Ho. injection Ho as <-. discriminate. }
  set (h1 := linked_before h this origin p o np).
  assert (h1 !! this = Some (mkUnRefNode (Some p) (Some origin))) as H1.
  { unfold h1. rewrite linked_before_lookup.
    rewrite !decide_False by auto. rewrite decide_True by reflexivity.
    reflexivity. }
  assert (h1 !! origin
          = Some (mkUnRefNode (Some this)
                    (if decide (p = origin) then Some this else next_node o)))
    as Ho1.
  { unfold h1. rewrite linked_before_lookup, decide_True by reflexivity.
    reflexivity. }
  assert (h1 !! p
          = Some (if decide (p = origin) then
                    mkUnRefNode (Some this) (Some this)
                  else mkUnRefNode (prev_node np) (Some this))) as Hp1.
  { unfold h1. rewrite linked_before_lookup.
    destruct (decide (p = origin)) as [E|E]; [reflexivity |].
    rewrite decide_True by reflexivity. reflexivity. }
  rewrite (unlinkIfReferenced_linked debug h1 this p origin _ _ H1 Hp1 Ho1).
  f_equal. apply map_eq. intros l.
  rewrite unlinked_from_lookup. unfold h1. rewrite linked_before_lookup.
  destruct o as [po qo], np as [pp qp]. simpl in *. subst po qp.
  repeat case_decide; subst; simpl; congruence.
Qed.

(** ** Chains of nodes *)

Lemma default_head_app {A} (d : A) xs ys :
  default d (head (xs ++ ys)) = default (default d (head ys)) (head xs).
Proof. destruct xs; reflexivity. Qed.

Lemma default_last_cons {A} (d x : A) xs :
  default d (last (x :: xs)) = default x (last xs).
Proof. rewrite last_cons. destruct (last xs); reflexivity. Qed.

Lemma default_last_app {A} (d : A) xs ys :
  default d (last (xs ++ ys)) = default (default d (last xs)) (last ys).
Proof. rewrite last_app. destruct (last ys); reflexivity. Qed.

Lemma chain_frame (h h' : heap) xs : ∀ p e,
  (∀ x, x ∈ xs → h' !! x = h !! x) →
  chain h p xs e → chain h' p xs e.
Proof.
  induction xs as [|x xs IH]; intros p e Hsame; simpl; [auto |].
  intros [Hx Hrest]. split.
  - rewrite Hsame by apply list_elem_of_here. exact Hx.
  - apply IH; [| exact Hrest].
    intros y Hy. apply Hsame, list_elem_of_further, Hy.
Qed.

Lemma chain_app (h : heap) xs ys e : ∀ p,
  chain h p (xs ++ ys) e
  ↔ chain h p xs (default e (head ys)) ∧ chain h (default p (last xs)) ys e.
Proof.
  induction xs as [|x xs IH]; intros p; simpl.
  - tauto.
  - rewrite IH, default_head_app, default_last_cons. tauto.
Qed.

Lemma chain_snoc (h : heap) p xs y e :
  chain h p (xs ++ [y]) e
  ↔ chain h p xs y
    ∧ h !! y = Some (mkUnRefNode (Some (default p (last xs))) (Some e)).
Proof. rewrite chain_app. simpl. tauto. Qed.

(** Every node of a chain is linked. *)
Lemma chain_linked (h : heap) xs : ∀ p e x,
  chain h p xs e → x ∈ xs →
  ∃ n, h !! x = Some n ∧ is_linked n = true.
Proof.
  induction xs as [|y xs IH]; intros p e x Hc Hx.
  - apply elem_of_nil in Hx as [].
  - destruct Hc as [Hy Hrest]. apply elem_of_cons in Hx as [->|Hx].
    + eexists. split; [exact Hy | reflexivity].
    + eapply IH; eauto.
Qed.

(** ** Ledgers *)

Lemma ledger_anchor (h : heap) a L :
  is_ledger h a L →
  h !! a = Some (mkUnRefNode (Some (default a (last L))) (Some (default a (head L)))).
Proof. intros (_ & H & _). exact H. Qed.

Lemma ledger_linked (h : heap) a L x :
  is_ledger h a L → x = a ∨ x ∈ L →
  ∃ n, h !! x = Some n ∧ is_linked n = true.
Proof.
  intros (_ & Ha & Hc) [->|Hx].
  - eexists. split; [exact Ha | reflexivity].
  - eapply chain_linked; eauto.
Qed.

(** An unlinked node is no part of a ledger. *)
Lemma ledger_unlinked_fresh (h : heap) a L x :
  is_ledger h a L → h !! x = Some UnRefNode_default → x ≠ a ∧ x ∉ L.
Proof.
  intros HL Hx.
  assert (¬ (x = a ∨ x ∈ L)) as Hn.
  { intros Hin. destruct (ledger_linked h a L x HL Hin) as (n & Hn & Hl).
    rewrite Hx in Hn. injection Hn as <-. discriminate. }
  tauto.
Qed.

(** The node before the anchor is the last one, and points at the anchor. *)
Lemma ledger_last (h : heap) a L :
  is_ledger h a L →
  ∃ np, h !! default a (last L) = Some np ∧ next_node np = Some a
        ∧ (default a (last L) = a ∨ default a (last L) ∈ L).
Proof.
  intros (Hnd & Ha & Hc).
  destruct L as [|z ys _] using rev_ind.
  - simpl. eexists. split; [exact Ha |]. split; [reflexivity | auto].
  - rewrite last_snoc. simpl.
    apply chain_snoc in Hc as [_ Hz].
    eexists. split; [exact Hz |]. split; [reflexivity |].
    right. apply elem_of_app. right. apply list_elem_of_here.
Qed.

(** Linking an unlinked node appends it to the ledger. *)
Lemma ledger_link debug (h : heap) a L x :
  is_ledger h a L → h !! x = Some UnRefNode_default →
  ∃ h', linkAsUnreferenced debug h x a = Ok h'
        ∧ is_ledger h' a (L ++ [x])
        ∧ (∀ l, l ≠ x → l ≠ a → l ∉ L → h' !! l = h !! l).
Proof.
  intros HL Hx.
  destruct (ledger_unlinked_fresh h a L x HL Hx) as [Hxa HxL].
  destruct (ledger_last h a L HL) as (np & Hnp & Hback & Hin).
  pose proof (ledger_anchor h a L HL) as Ha.
  assert (default a (last L) ≠ x) as Hpx.
  { intros E. destruct Hin as [Hin|Hin]; rewrite E in Hin; auto. }
  eexists. split; [| split].
  - apply (linkAsUnreferenced_unlinked debug h x a _ _ np Hx Ha eq_refl Hnp Hpx).
  - destruct HL as (Hnd & _ & Hc).
    assert (NoDup (a :: L ++ [x])) as Hnd'.
    { apply NoDup_cons in Hnd as [HaL HndL]. apply NoDup_cons. split.
      - rewrite elem_of_app, list_elem_of_singleton. intros [?|?]; auto.
      - apply NoDup_app. split; [exact HndL |]. split; [| apply NoDup_singleton].
        intros y Hy ->%list_elem_of_singleton. auto. }
    split; [exact Hnd' |].
    apply NoDup_cons in Hnd as [HaL HndL].
    destruct L as [|z ys _] using rev_ind.
    + simpl in *. rewrite !linked_before_lookup. settle_decides. auto.
    + rewrite last_snoc in *. simpl in *.
      apply chain_snoc in Hc as [Hys Hz].
      rewrite Hz in Hnp. injection Hnp as <-. simpl.
      assert (z ≠ a) as Hza.
      { intros ->. apply HaL, elem_of_app. right. apply list_elem_of_here. }
      assert (z ∉ ys) as Hzys.
      { apply NoDup_app in HndL as (_ & Hdis & _). intros Hz'.
        apply (Hdis z Hz'), list_elem_of_here. }
      rewrite default_last_app, !default_head_app. simpl.
      split.
      * rewrite linked_before_lookup. rewrite decide_True by reflexivity.
        rewrite decide_False by exact Hza. reflexivity.
      * rewrite !chain_snoc, last_snoc. simpl. split; [split |].
        -- apply (chain_frame h); [| exact Hys].
           intros y Hy. rewrite linked_before_lookup.
           rewrite !decide_False; [reflexivity | | |].
           ++ intros ->. apply HxL, elem_of_app. auto.
           ++ intros ->. auto.
           ++ intros ->. apply HaL, elem_of_app. auto.
        -- rewrite linked_before_lookup.
           rewrite decide_False by exact Hza.
           rewrite decide_True by reflexivity. reflexivity.
        -- rewrite linked_before_lookup.
           rewrite decide_False by exact Hxa.
           rewrite decide_False by auto.
           rewrite decide_True by reflexivity. reflexivity.
  - intros l Hlx Hla HlL. rewrite linked_before_lookup.
    rewrite decide_False by exact Hla.
    rewrite decide_False.
    + rewrite decide_False by exact Hlx. reflexivity.
    + intros ->. destruct Hin; auto.
Qed.

(** Linking twice in a row is linking once. *)
Lemma linkAsUnreferenced_twice debug (h : heap) a L x :
  is_ledger h a L → h !! x = Some UnRefNode_default →
  ∃ h1, linkAsUnreferenced debug h x a = Ok h1
        ∧ linkAsUnreferenced debug h1 x a = Ok h1
        ∧ is_ledger h1 a (L ++ [x]).
Proof.
  intros HL Hx.
  destruct (ledger_link debug h a L x HL Hx) as (h1 & Hlink & HL1 & _).
  exists h1. split; [exact Hlink |]. split; [| exact HL1].
  destruct (ledger_linked h1 a (L ++ [x]) x HL1) as (n & Hn & Hlinked).
  { right. apply elem_of_app. right. apply list_elem_of_here. }
  exact (linkAsUnreferenced_linked debug h1 x a n Hn Hlinked).
Qed.

(** ** Drain order *)

Lemma walk_chain (h : heap) a xs : ∀ p fuel,
  chain h p xs a → a ∉ xs → (length xs <= fuel)%nat →
  walk fuel h a (default a (head xs)) = Ok xs.
Proof.
  induction xs as [|x xs IH]; intros p fuel Hc Ha Hlen; simpl in *.
  - destruct fuel; simpl; rewrite decide_True by reflexivity; reflexivity.
  - destruct Hc as [Hx Hrest].
    apply not_elem_of_cons in Ha as [Hax Ha].
    destruct fuel as [|fuel]; [lia |]. simpl.
    rewrite decide_False by auto.
    rewrite (load_some _ _ _ Hx). simpl.
    rewrite (IH x fuel Hrest Ha) by lia. reflexivity.
Qed.

Lemma traverse_ledger (h : heap) a L fuel :
  is_ledger h a L → (length L <= fuel)%nat → traverse fuel h a = Ok L.
Proof.
  intros (Hnd & Ha & Hc) Hlen. unfold traverse.
  rewrite (load_some _ _ _ Ha). simpl.
  apply NoDup_cons in Hnd as [HaL _].
  apply (walk_chain h a L a fuel Hc HaL Hlen).
Qed.

Lemma link_all_ledger debug xs : ∀ (h : heap) a L,
  is_ledger h a L → NoDup xs →
  (∀ x, x ∈ xs → h !! x = Some UnRefNode_default) →
  ∃ h', link_all debug h a xs = Ok h' ∧ is_ledger h' a (L ++ xs).
Proof.
  induction xs as [|x xs IH]; intros h a L HL Hnd Hdef; simpl.
  - exists h. rewrite app_nil_r. auto.
  - apply NoDup_cons in Hnd as [Hx Hnd].
    destruct (ledger_link debug h a L x HL) as (h1 & Hlink & HL1 & Hframe).
    { apply Hdef, list_elem_of_here. }
    rewrite Hlink. simpl.
    destruct (IH h1 a (L ++ [x]) HL1 Hnd) as (h' & Hall & HL').
    { intros y Hy.
      pose proof (Hdef y (list_elem_of_further _ _ _ Hy)) as Hydef.
      destruct (ledger_unlinked_fresh h a L y HL Hydef) as [Hya HyL].
      rewrite Hframe; [exact Hydef | | exact Hya | exact HyL].
      intros ->. auto. }
    exists h'. rewrite <- app_assoc in HL'. auto.
Qed.

(** C2: [linkAsUnreferenced] puts an unlinked node right before the
    anchor, at the tail of the list: linking distinct unlinked nodes
    (three of them, [A], [B], [C], or any number) one after the other into
    a ledger appends them in this order, and going from the anchor's
    [next_node] round to the anchor meets the nodes that were there, then
    the new ones in the order they were linked. *)
Theorem linkAsUnreferenced_fifo (debug : bool) (h : heap) (a : loc)
    (L xs : list loc) :
  is_ledger h a L →
  NoDup xs →
  (∀ x, x ∈ xs → h !! x = Some UnRefNode_default) →
  ∃ h', link_all debug h a xs = Ok h'
        ∧ is_ledger h' a (L ++ xs)
        ∧ prev_node <$> h' !! a = Some (Some (default a (last (L ++ xs))))
        ∧ ∀ fuel, (length (L ++ xs) <= fuel)%nat →
                  traverse fuel h' a = Ok (L ++ xs).
Proof.
  intros HL Hnd Hdef.
  destruct (link_all_ledger debug xs h a L HL Hnd Hdef) as (h' & Hall & HL').
  exists h'. split; [exact Hall |]. split; [exact HL' |]. split.
  - rewrite (ledger_anchor h' a _ HL'). reflexivity.
  - intros fuel Hlen. apply traverse_ledger; assumption.
Qed.

Lemma linkAsUnreferenced_fifo_witness :
  ∃ h', link_all true empty_ledger_store 1 [2; 3; 4]%positive = Ok h'
        ∧ is_ledger h' 1 [2; 3; 4]%positive
        ∧ prev_node <$> h' !! 1%positive = Some (Some 4%positive)
        ∧ ∀ fuel, (3 <= fuel)%nat →
                  traverse fuel h' 1 = Ok [2; 3; 4]%positive.
Proof.
  apply (linkAsUnreferenced_fifo true empty_ledger_store 1 [] [2; 3; 4]%positive).
  - apply (bool_decide_unpack _). vm_compute. reflexivity.
  - apply (bool_decide_unpack _). vm_compute. reflexivity.
  - intros x Hx.
    repeat (apply elem_of_cons in Hx as [->|Hx]; [reflexivity |]).
    apply elem_of_nil in Hx as [].
Defined.

(** ** Unlinking from a ledger *)

(** A chain whose last node gets a new successor. *)
Lemma chain_retarget (h h' : heap) p0 xs e e' :
  NoDup xs → chain h p0 xs e →
  (∀ l, l ∈ xs → Some l ≠ last xs → h' !! l = h !! l) →
  (∀ z n, last xs = Some z → h !! z = Some n →
          h' !! z = Some (mkUnRefNode (prev_node n) (Some e'))) →
  chain h' p0 xs e'.
Proof.
  intros Hnd Hc Hsame Hlast.
  destruct xs as [|z ys _] using rev_ind; [exact I |].
  apply chain_snoc in Hc as [Hys Hz]. apply chain_snoc.
  apply NoDup_app in Hnd as (_ & Hdis & _).
  rewrite last_snoc in *. split.
  - apply (chain_frame h); [| exact Hys].
    intros l Hl. apply Hsame.
    + apply elem_of_app. auto.
    + intros [= ->]. apply (Hdis z Hl), list_elem_of_here.
  - rewrite (Hlast z _ eq_refl Hz). reflexivity.
Qed.

(** A chain whose first node gets a new predecessor. *)
Lemma chain_resource (h h' : heap) p0 p0' xs e :
  NoDup xs → chain h p0 xs e →
  (∀ l, l ∈ xs → Some l ≠ head xs → h' !! l = h !! l) →
  (∀ y n, head xs = Some y → h !! y = Some n →
          h' !! y = Some (mkUnRefNode (Some p0') (next_node n))) →
  chain h' p0' xs e.
Proof.
  intros Hnd Hc Hsame Hhead.
  destruct xs as [|y ys]; [exact I |].
  destruct Hc as [Hy Hys]. apply NoDup_cons in Hnd as [Hyys _].
  simpl in *. split.
  - rewrite (Hhead y _ eq_refl Hy). reflexivity.
  - apply (chain_frame h); [| exact Hys].
    intros l Hl. apply Hsame.
    + apply list_elem_of_further, Hl.
    + intros [= ->]. auto.
Qed.

Lemma default_last_elem {A} (d : A) xs :
  (xs = [] ∧ default d (last xs) = d)
  ∨ (last xs = Some (default d (last xs)) ∧ default d (last xs) ∈ xs).
Proof.
  destruct (last xs) as [z|] eqn:E.
  - right. simpl. split; [reflexivity |].
    apply last_Some in E as [ys ->]. apply elem_of_app. right.
    apply list_elem_of_here.
  - left. apply last_None in E. auto.
Qed.

Lemma default_head_elem {A} (d : A) xs :
  (xs = [] ∧ default d (head xs) = d)
  ∨ (head xs = Some (default d (head xs)) ∧ default d (head xs) ∈ xs).
Proof.
  destruct xs as [|y ys]; [left; auto |].
  right. simpl. split; [reflexivity | apply list_elem_of_here].
Qed.

(** Unlinking a node of a ledger takes it out and keeps the others in
    their order. *)
Lemma ledger_unlink debug (h : heap) a L1 x L2 :
  is_ledger h a (L1 ++ x :: L2) →
  ∃ h', unlinkIfReferenced debug h x = Ok h'
        ∧ is_ledger h' a (L1 ++ L2)
        ∧ h' !! x = Some UnRefNode_default
        ∧ (∀ l, l ≠ x → l ≠ a → l ∉ L1 → l ∉ L2 → h' !! l = h !! l).
Proof.
  intros HL.
  set (p := default a (last L1)). set (q := default a (head L2)).
  destruct (ledger_linked h a _ p HL) as (np & Hnp & _).
  { destruct (default_last_elem a L1) as [[_ E]|[_ E]]; [left; exact E |].
    right. apply elem_of_app. left. exact E. }
  destruct (ledger_linked h a _ q HL) as (nq & Hnq & _).
  { destruct (default_head_elem a L2) as [[_ E]|[_ E]]; [left; exact E |].
    right. apply elem_of_app. right. apply list_elem_of_further, E. }
  destruct HL as (Hnd & Ha & Hc).
  apply chain_app in Hc as [Hc1 [Hx Hc2]]. simpl in Hc1. fold p q in Hx.
  apply NoDup_cons in Hnd as [HaL Hnd].
  rewrite elem_of_app, elem_of_cons in HaL.
  apply NoDup_app in Hnd as (Hnd1 & Hdis & Hnd2).
  apply NoDup_cons in Hnd2 as [HxL2 Hnd2].
  assert (x ∉ L1) as HxL1.
  { intros Hin. apply (Hdis x Hin), list_elem_of_here. }
  assert (∀ l, l ∈ L1 → l ∉ L2) as Hdis'.
  { intros l Hl Hl2. apply (Hdis l Hl), list_elem_of_further, Hl2. }
  assert (x ≠ a) as Hxa by (intros E; apply HaL; auto).
  assert (a ∉ L1) as HaL1 by tauto.
  assert (a ∉ L2) as HaL2 by tauto.
  assert (p ≠ x) as Hpx.
  { destruct (default_last_elem a L1) as [[_ E]|[_ E]]; fold p in E; congruence. }
  assert (q ≠ x) as Hqx.
  { destruct (default_head_elem a L2) as [[_ E]|[_ E]]; fold q in E; congruence. }
  exists (unlinked_from h x p q np nq).
  split; [exact (unlinkIfReferenced_linked debug h x p q np nq Hx Hnp Hnq) |].
  split; [| split].
  - split; [| split].
    + apply NoDup_cons. split.
      * rewrite elem_of_app. tauto.
      * apply NoDup_app. auto.
    + (* the anchor *)
      rewrite default_last_app, default_head_app, default_last_cons in Ha.
      rewrite default_last_app, default_head_app. fold p q. simpl in Ha.
      rewrite unlinked_from_lookup. rewrite decide_False by auto.
      destruct (default_last_elem a L1) as [[E1 Ep]|[E1 Ep]];
        destruct (default_head_elem a L2) as [[E2 Eq]|[E2 Eq]];
        fold p in E1, Ep; fold q in E2, Eq.
      * subst L1 L2. rewrite Ep, Eq. settle_decides. reflexivity.
      * subst L1. simpl in *. rewrite Ep in *.
        assert (q ≠ a) by congruence.
        settle_decides. rewrite Ha in Hnp. injection Hnp as <-. simpl.
        destruct L2 as [|y2 L2']; [discriminate |].
        rewrite <- (default_last_cons a). reflexivity.
      * subst L2. simpl in *. rewrite Eq in *.
        assert (p ≠ a) by congruence.
        settle_decides. rewrite Ha in Hnq. injection Hnq as <-. simpl.
        destruct L1 as [|y1 L1']; [discriminate |]. reflexivity.
      * assert (p ≠ a) by congruence. assert (q ≠ a) by congruence.
        settle_decides. rewrite Ha.
        destruct L1 as [|y1 L1']; [discriminate |].
        destruct L2 as [|y2 L2']; [discriminate |].
        simpl. rewrite <- (default_last_cons p). reflexivity.
    + (* the two halves of the chain *)
      apply chain_app. fold p q. split.
      * apply (chain_retarget h _ a L1 x q Hnd1 Hc1).
        -- intros l Hl Hne. rewrite unlinked_from_lookup.
           assert (l ≠ x) by congruence.
           assert (l ≠ q).
           { destruct (default_head_elem a L2) as [[_ E]|[_ E]]; fold q in E.
             - congruence.
             - intros ->. exact (Hdis' q Hl E). }
           assert (l ≠ p).
           { destruct (default_last_elem a L1) as [[E _]|[E _]]; fold p in E.
             - subst L1. apply elem_of_nil in Hl as [].
             - congruence. }
           settle_decides. reflexivity.
        -- intros z n Hz Hn. rewrite unlinked_from_lookup.
           assert (p = z) as -> by (unfold p; rewrite Hz; reflexivity).
           assert (z ∈ L1) as HzL1.
           { apply last_Some in Hz as [ys ->]. apply elem_of_app. right.
             apply list_elem_of_here. }
           assert (q ≠ z).
           { destruct (default_head_elem a L2) as [[_ E]|[_ E]]; fold q in E.
             - congruence.
             - intros ->. exact (Hdis' z HzL1 E). }
           settle_decides. congruence.
      * apply (chain_resource h _ x p L2 a Hnd2 Hc2).
        -- intros l Hl Hne. rewrite unlinked_from_lookup.
           assert (l ≠ x) by congruence.
           assert (l ≠ q).
           { destruct (default_head_elem a L2) as [[E _]|[E _]]; fold q in E.
             - subst L2. apply elem_of_nil in Hl as [].
             - congruence. }
           assert (l ≠ p).
           { destruct (default_last_elem a L1) as [[_ E]|[_ E]]; fold p in E.
             - congruence.
             - intros ->. exact (Hdis' p E Hl). }
           settle_decides. reflexivity.
        -- intros y n Hy Hn. rewrite unlinked_from_lookup.
           assert (q = y) as -> by (unfold q; rewrite Hy; reflexivity).
           assert (y ∈ L2) as HyL2.
           { destruct L2; [discriminate |]. injection Hy as ->.
             apply list_elem_of_here. }
           assert (y ≠ p).
           { destruct (default_last_elem a L1) as [[_ E]|[_ E]]; fold p in E.
             - congruence.
             - intros ->. exact (Hdis' p E HyL2). }
           settle_decides. congruence.
  - rewrite unlinked_from_lookup. settle_decides. reflexivity.
  - intros l Hlx Hla Hl1 Hl2. rewrite unlinked_from_lookup.
    assert (l ≠ q).
    { destruct (default_head_elem a L2) as [[_ E]|[_ E]]; fold q in E; congruence. }
    assert (l ≠ p).
    { destruct (default_last_elem a L1) as [[_ E]|[_ E]]; fold p in E; congruence. }
    settle_decides. reflexivity.
Qed.

(** C6: [unlinkIfReferenced] undoes [linkAsUnreferenced].  On a linked
    node it makes the two neighbours point at each other and sets the
    node's own [prev_node] and [next_node] to [nullptr]; on an unlinked
    node it does nothing; called twice it does what one call does; and
    linking an unlinked node into a ledger, then unlinking it, gives back
    the very store, the ledger and the node as they were. *)
Theorem unlinkIfReferenced_inverse (debug : bool) (h : heap) :
  (∀ this p q np nq,
     h !! this = Some (mkUnRefNode (Some p) (Some q)) →
     h !! p = Some np → h !! q = Some nq → p ≠ this → q ≠ this →
     ∃ h', unlinkIfReferenced debug h this = Ok h'
           ∧ h' !! this = Some UnRefNode_default
           ∧ next_node <$> h' !! p = Some (Some q)
           ∧ prev_node <$> h' !! q = Some (Some p)
           ∧ ∀ l, l ≠ this → l ≠ p → l ≠ q → h' !! l = h !! l)
  ∧ (∀ this, h !! this = Some UnRefNode_default →
             unlinkIfReferenced debug h this = Ok h)
  ∧ (∀ this h', unlinkIfReferenced debug h this = Ok h' →
                unlinkIfReferenced debug h' this = Ok h')
  ∧ (∀ a L x,
       is_ledger h a L → h !! x = Some UnRefNode_default →
       ∃ h1, linkAsUnreferenced debug h x a = Ok h1
             ∧ is_ledger h1 a (L ++ [x])
             ∧ unlinkIfReferenced debug h1 x = Ok h).
Proof.
  split; [| split; [| split]].
  - intros this p q np nq Hn Hp Hq Hpt Hqt.
    exists (unlinked_from h this p q np nq).
    split; [exact (unlinkIfReferenced_linked debug h this p q np nq Hn Hp Hq) |].
    rewrite !unlinked_from_lookup. settle_decides.
    split; [reflexivity |]. split; [| split].
    + destruct (decide (p = q)) as [->|Hpq]; settle_decides; reflexivity.
    + reflexivity.
    + intros l Hl1 Hl2 Hl3. rewrite unlinked_from_lookup.
      settle_decides. reflexivity.
  - intros this. apply unlinkIfReferenced_unlinked.
  - intros this h'. apply unlinkIfReferenced_twice.
  - intros a L x HL Hx.
    destruct (ledger_link debug h a L x HL Hx) as (h1 & Hlink & HL1 & _).
    exists h1. split; [exact Hlink |]. split; [exact HL1 |].
    destruct (ledger_unlinked_fresh h a L x HL Hx) as [Hxa HxL].
    destruct (ledger_last h a L HL) as (np & Hnp & Hback & Hin).
    pose proof (ledger_anchor h a L HL) as Ha.
    assert (default a (last L) ≠ x) as Hpx.
    { intros E. destruct Hin as [Hin|Hin]; rewrite E in Hin; auto. }
    rewrite (linkAsUnreferenced_unlinked debug h x a _ _ np Hx Ha eq_refl Hnp Hpx)
      in Hlink.
    injection Hlink as <-.
    apply (link_then_unlink debug h x a _ _ np Hx Ha eq_refl Hnp Hback).
Qed.

Lemma unlinkIfReferenced_inverse_witness :
  (∃ h', unlinkIfReferenced true one_node_ledger_store 2 = Ok h'
         ∧ h' !! 2%positive = Some UnRefNode_default
         ∧ next_node <$> h' !! 1%positive = Some (Some 1%positive)
         ∧ prev_node <$> h' !! 1%positive = Some (Some 1%positive)
         ∧ ∀ l, l ≠ 2%positive → l ≠ 1%positive → l ≠ 1%positive →
                h' !! l = one_node_ledger_store !! l)
  ∧ (∃ h1, linkAsUnreferenced true empty_ledger_store 2 1 = Ok h1
           ∧ is_ledger h1 1 ([] ++ [2%positive])
           ∧ unlinkIfReferenced true h1 2 = Ok empty_ledger_store).
Proof.
  split.
  - destruct (unlinkIfReferenced_inverse true one_node_ledger_store)
      as (Hlinked & _).
    apply (Hlinked 2%positive 1%positive 1%positive
             (mkUnRefNode (Some 2%positive) (Some 2%positive))
             (mkUnRefNode (Some 2%positive) (Some 2%positive)));
      (reflexivity || discriminate).
  - destruct (unlinkIfReferenced_inverse true empty_ledger_store)
      as (_ & _ & _ & Hround).
    apply (Hround 1%positive [] 2%positive).
    + apply (bool_decide_unpack _). vm_compute. reflexivity.
    + reflexivity.
Defined.

(** ** Invariant I1 *)

Lemma well_linked_I1 (h : heap) : well_linked h → heap_I1 h.
Proof.
  intros HW l n Hl. specialize (HW l n Hl). unfold points_back in HW.
  destruct n as [[p|] [q|]]; simpl in *; tauto.
Qed.

Lemma well_linked_lookup (h : heap) l p q :
  well_linked h → h !! l = Some (mkUnRefNode (Some p) (Some q)) →
  (∃ np, h !! p = Some np ∧ next_node np = Some l)
  ∧ (∃ nq, h !! q = Some nq ∧ prev_node nq = Some l).
Proof.
  intros HW Hl. specialize (HW l _ Hl). unfold points_back in HW. simpl in HW.
  destruct HW as [Hp Hq].
  destruct (h !! p) as [np|]; [| discriminate].
  destruct (h !! q) as [nq|]; [| discriminate].
  simpl in *. split; eexists; split; eauto; congruence.
Qed.

Lemma linkAsUnreferenced_no_origin debug (h : heap) this origin :
  h !! this = Some UnRefNode_default → h !! origin = None →
  linkAsUnreferenced debug h this origin = Fault InvalidPointer.
Proof.
  intros Hthis Ho. unfold linkAsUnreferenced.
  rewrite (load_some _ _ _ Hthis). simpl. rewrite assert_holds. simpl.
  rewrite (store_next_some _ _ _ _ Hthis). simpl.
  unfold load. rewrite lookup_insert_ne by congruence. rewrite Ho. reflexivity.
Qed.

Lemma linkAsUnreferenced_no_this debug (h : heap) this origin :
  h !! this = None → linkAsUnreferenced debug h this origin = Fault InvalidPointer.
Proof. intros Hthis. unfold linkAsUnreferenced, load. rewrite Hthis. reflexivity. Qed.

Lemma unlinkIfReferenced_no_this debug (h : heap) this :
  h !! this = None → unlinkIfReferenced debug h this = Fault InvalidPointer.
Proof. intros Hthis. unfold unlinkIfReferenced, load. rewrite Hthis. reflexivity. Qed.

Lemma linked_before_well_linked (h : heap) this origin p q0 pp :
  well_linked h →
  h !! this = Some UnRefNode_default →
  h !! origin = Some (mkUnRefNode (Some p) (Some q0)) →
  h !! p = Some (mkUnRefNode (Some pp) (Some origin)) →
  well_linked
    (linked_before h this origin p (mkUnRefNode (Some p) (Some q0))
       (mkUnRefNode (Some pp) (Some origin))).
Proof.
  intros HW Hthis Ho Hp. unfold UnRefNode_default in Hthis.
  destruct (well_linked_lookup h origin p q0 HW Ho)
    as [_ (nq0 & Hq0 & Hq0back)].
  destruct (well_linked_lookup h p pp origin HW Hp)
    as [(npp & Hpp & Hppback) _].
  intros l n Hl. rewrite linked_before_lookup in Hl.
  unfold points_back.
  destruct (decide (l = origin)) as [->|Hlo];
    [| destruct (decide (l = p)) as [->|Hlp];
       [| destruct (decide (l = this)) as [->|Hlt]]].
  - injection Hl as <-.
    split_decides linked_before_lookup; repeat split;
      rewrite ?Hq0; simplify_eq/=; close_case.
  - injection Hl as <-.
    split_decides linked_before_lookup; repeat split;
      rewrite ?Hpp; simplify_eq/=; close_case.
  - injection Hl as <-.
    split_decides linked_before_lookup; repeat split; simplify_eq/=;
      close_case.
  - pose proof (HW l n Hl) as Hb. unfold points_back in Hb.
    destruct n as [[a1|] [b1|]]; simpl in *; try tauto.
    clear Hb.
    destruct (well_linked_lookup h l a1 b1 HW Hl)
      as [(na1 & Ha1 & Ha1back) (nb1 & Hb1 & Hb1back)].
    split_decides linked_before_lookup; repeat split;
      rewrite ?Ha1, ?Hb1; simplify_eq/=; close_case.
Qed.

Lemma well_linked_node (h : heap) l n :
  well_linked h → h !! l = Some n →
  n = UnRefNode_default
  ∨ ∃ p q, n = mkUnRefNode (Some p) (Some q).
Proof.
  intros HW Hl. specialize (HW l n Hl). unfold points_back in HW.
  destruct n as [[p|] [q|]]; simpl in *; try tauto; eauto.
Qed.

Lemma unlinked_from_well_linked (h : heap) this p q np nq :
  well_linked h →
  h !! this = Some (mkUnRefNode (Some p) (Some q)) →
  h !! p = Some np → h !! q = Some nq →
  well_linked (unlinked_from h this p q np nq).
Proof.
  intros HW Hthis Hp Hq.
  destruct (well_linked_lookup h this p q HW Hthis)
    as [(np' & Hp' & Hpback) (nq' & Hq' & Hqback)].
  rewrite Hp in Hp'. injection Hp' as <-.
  rewrite Hq in Hq'. injection Hq' as <-.
  destruct (well_linked_node h p np HW Hp) as [->|(pp & ? & ->)];
    [discriminate |].
  destruct (well_linked_node h q nq HW Hq) as [->|(? & qq & ->)];
    [discriminate |].
  simpl in *. simplify_eq.
  destruct (well_linked_lookup h p pp this HW Hp)
    as [(npp & Hpp & Hppback) _].
  destruct (well_linked_lookup h q this qq HW Hq)
    as [_ (nqq & Hqq & Hqqback)].
  intros l n Hl. rewrite unlinked_from_lookup in Hl.
  unfold points_back.
  destruct (decide (l = this)) as [->|Hlt];
    [| destruct (decide (l = q)) as [->|Hlq];
       [| destruct (decide (l = p)) as [->|Hlp]]].
  - injection Hl as <-. exact I.
  - injection Hl as <-.
    split_decides unlinked_from_lookup; repeat split;
      rewrite ?Hqq, ?Hpp; simplify_eq/=; close_case.
  - injection Hl as <-.
    split_decides unlinked_from_lookup; repeat split;
      rewrite ?Hqq, ?Hpp; simplify_eq/=; close_case.
  - pose proof (HW l n Hl) as Hb. unfold points_back in Hb.
    destruct n as [[a1|] [b1|]]; simpl in *; try tauto.
    clear Hb.
    destruct (well_linked_lookup h l a1 b1 HW Hl)
      as [(na1 & Ha1 & Ha1back) (nb1 & Hb1 & Hb1back)].
    split_decides unlinked_from_lookup; repeat split;
      rewrite ?Ha1, ?Hb1; simplify_eq/=; close_case.
Qed.

Lemma linkAsUnreferenced_well_linked debug (h h' : heap) this origin :
  well_linked h → linkAsUnreferenced debug h this origin = Ok h' →
  well_linked h'.
Proof.
  intros HW H.
  destruct (h !! this) as [n|] eqn:Hthis;
    [| rewrite linkAsUnreferenced_no_this in H by exact Hthis; discriminate].
  destruct (well_linked_node h this n HW Hthis) as [->|(p' & q' & ->)].
  2: { rewrite (linkAsUnreferenced_linked debug h this origin _ Hthis eq_refl) in H.
       injection H as <-. exact HW. }
  destruct (h !! origin) as [o|] eqn:Ho;
    [| rewrite linkAsUnreferenced_no_origin in H by assumption; discriminate].
  destruct (well_linked_node h origin o HW Ho) as [->|(p & q0 & ->)].
  { rewrite (linkAsUnreferenced_null_prev debug h this origin _ Hthis Ho eq_refl) in H.
    discriminate. }
  destruct (well_linked_lookup h origin p q0 HW Ho) as [(np & Hp & Hback) _].
  destruct (well_linked_node h p np HW Hp) as [->|(pp & ? & ->)];
    [discriminate |].
  simpl in Hback. injection Hback as ->.
  assert (p ≠ this) as Hpt.
  { intros ->. rewrite Hthis in Hp. discriminate. }
  rewrite (linkAsUnreferenced_unlinked debug h this origin p _ _ Hthis Ho eq_refl Hp Hpt)
    in H.
  injection H as <-.
  apply linked_before_well_linked; assumption.
Qed.

Lemma unlinkIfReferenced_well_linked debug (h h' : heap) this :
  well_linked h → unlinkIfReferenced debug h this = Ok h' →
  well_linked h'.
Proof.
  intros HW H.
  destruct (h !! this) as [n|] eqn:Hthis;
    [| rewrite unlinkIfReferenced_no_this in H by exact Hthis; discriminate].
  destruct (well_linked_node h this n HW Hthis) as [->|(p & q & ->)].
  { rewrite (unlinkIfReferenced_unlinked debug h this Hthis) in H.
    injection H as <-. exact HW. }
  destruct (well_linked_lookup h this p q HW Hthis)
    as [(np & Hp & _) (nq & Hq & _)].
  rewrite (unlinkIfReferenced_linked debug h this p q np nq Hthis Hp Hq) in H.
  injection H as <-.
  apply unlinked_from_well_linked; assumption.
Qed.

Lemma run_node_ops_well_linked debug ops : ∀ (h h' : heap),
  well_linked h → run_node_ops debug h ops = Ok h' → well_linked h'.
Proof.
  induction ops as [|op ops IH]; intros h h' HW H; simpl in H.
  - injection H as <-. exact HW.
  - apply bind_ok in H as (h1 & Hop & H).
    apply (IH h1 h'); [| exact H].
    destruct op as [this origin|this]; simpl in Hop.
    + exact (linkAsUnreferenced_well_linked debug h h1 this origin HW Hop).
    + exact (unlinkIfReferenced_well_linked debug h h1 this HW Hop).
Qed.

(** C7 (as amended): a default-constructed node satisfies I1, and from
    a store in which, besides I1, the neighbours of every linked node
    point back at it, any sequence of [linkAsUnreferenced] and
    [unlinkIfReferenced] calls that goes through leaves a store of the same
    kind: every node has [prev_node] and [next_node] both null or both
    non-null. *)
Theorem I1_preserved (debug : bool) (h h' : heap) (ops : list node_op) :
  well_linked h →
  run_node_ops debug h ops = Ok h' →
  both_or_none UnRefNode_default = true
  ∧ heap_I1 h ∧ heap_I1 h' ∧ well_linked h'.
Proof.
  intros HW H.
  pose proof (run_node_ops_well_linked debug ops h h' HW H) as HW'.
  split; [reflexivity |].
  split; [apply well_linked_I1, HW |].
  split; [apply well_linked_I1, HW' | exact HW'].
Qed.

Lemma I1_preserved_witness :
  let h' := final_store (run_node_ops true empty_ledger_store example_node_ops) in
  run_node_ops true empty_ledger_store example_node_ops = Ok h'
  ∧ both_or_none UnRefNode_default = true
  ∧ heap_I1 empty_ledger_store ∧ heap_I1 h' ∧ well_linked h'.
Proof.
  intros h'.
  assert (run_node_ops true empty_ledger_store example_node_ops = Ok h') as Hrun.
  { vm_compute. reflexivity. }
  split; [exact Hrun |].
  apply (I1_preserved true empty_ledger_store h' example_node_ops).
  - apply (bool_decide_unpack _). vm_compute. reflexivity.
  - exact Hrun.
Defined.

(** C7 as stated fails: I1 on every node is not enough for the calls to
    keep it.  In [stray_store] every node satisfies I1, but the anchor's
    [prev_node] is an unlinked node; linking node 3 before the anchor
    writes that node's [next_node] only and leaves it with a null
    [prev_node] and a non-null [next_node]. *)
Lemma I1_preserved_counterexample :
  heap_I1 stray_store
  ∧ ∃ h', run_node_ops true stray_store [OpLink 3 1] = Ok h'
          ∧ h' !! 2%positive = Some (mkUnRefNode None (Some 3%positive))
          ∧ ¬ heap_I1 h'.
Proof.
  split.
  - apply (bool_decide_unpack _). vm_compute. reflexivity.
  - exists (final_store (run_node_ops true stray_store [OpLink 3 1])).
    split; [vm_compute; reflexivity |].
    split; [vm_compute; reflexivity |].
    intros HI1.
    specialize (HI1 2%positive (mkUnRefNode None (Some 3%positive))).
    discriminate HI1. vm_compute. reflexivity.
Qed.

(** ** Creation from a memory resource *)

(** C8: [createWithPmr] has two outcomes and no other.  When the single
    call of [allocate] yields storage, the result is that non-null pointer,
    a [Concrete] built from the arguments sits there, and the out-failure
    parameter is as the caller passed it (unset if it was unset).  When
    [allocate] yields [nullptr], the result is [nullptr], no object is
    constructed and the out-failure parameter holds [MemoryError].  Either
    way [allocate] was called once: the memory resource is the one left by
    that call, and a resource that counts its calls counts one more. *)
Theorem createWithPmr_outcomes {Memory Concrete Failure Args : Type}
    (allocate : Memory → ptr * Memory) (construct : Args → Concrete)
    (MemoryError : Failure) (st : pmr_state Memory Concrete Failure)
    (args : Args) :
  let r := (createWithPmr allocate construct MemoryError st args).1 in
  let st' := (createWithPmr allocate construct MemoryError st args).2 in
  ((∃ c, (allocate (memory st)).1 = Some c
         ∧ r = Some c
         ∧ objects st' = <[c := construct args]> (objects st)
         ∧ objects st' !! c = Some (construct args)
         ∧ out_failure st' = out_failure st)
   ∨ ((allocate (memory st)).1 = None
      ∧ r = None
      ∧ objects st' = objects st
      ∧ out_failure st' = Some MemoryError))
  ∧ memory st' = (allocate (memory st)).2
  ∧ ∀ k : nat,
      (memory
         (createWithPmr (counted allocate) construct MemoryError
            (mkPmrState (memory st, k) (objects st) (out_failure st)) args).2).2
      = S k.
Proof.
  unfold createWithPmr, counted. simpl.
  destruct (allocate (memory st)) as [[c|] m] eqn:E; simpl.
  - split; [| split; [reflexivity |]].
    + left. exists c. rewrite lookup_insert_eq. auto.
    + intros k. reflexivity.
  - split; [| split; [reflexivity |]].
    + right. auto.
    + intros k. reflexivity.
Qed.

(** An arena with room for one object: the first creation succeeds, the
    second reports [MemoryError] and builds nothing. *)
Example createWithPmr_exhaustion :
  let st0 := mkPmrState (mkArena 1 1) (∅ : gmap loc nat) (None : option unit) in
  let '(r1, st1) := createWithPmr arena_allocate (λ n : nat, n) tt st0 7%nat in
  let '(r2, st2) := createWithPmr arena_allocate (λ n : nat, n) tt st1 8%nat in
  r1 = Some 1%positive ∧ out_failure st1 = None
  ∧ r2 = None ∧ out_failure st2 = Some tt ∧ objects st2 = objects st1
  ∧ objects st2 !! 1%positive = Some 7%nat.
Proof. vm_compute. repeat split; reflexivity. Qed.

(** ** The spin *)

Section SpinFacts.
Variable w : positive.
Variable debug : bool.

Lemma load_shared_ok s x o : load_shared s x = Ok o → shared s !! x = Some o.
Proof. unfold load_shared. destruct (shared s !! x); [congruence | discriminate]. Qed.

Lemma release_ok o o' b :
  release w debug o = Ok (o', b) →
  o' = mkSharedObject ((ref_count_ o - 1) mod size_t_modulus w).
Proof.
  unfold release. intros H. apply bind_ok in H as (u & _ & H).
  injection H as <- <-. reflexivity.
Qed.

(** A handle operation keeps the ledger in shape, and the objects that
    await destruction are in it. *)
Lemma run_handle_op_ok a s L (W : gset loc) op s' t :
  world_ok a s L → (∀ x, x ∈ W → x ∈ L) →
  run_handle_op w debug a s op = Ok (s', t) →
  ∃ L', world_ok a s' L' ∧ (∀ x, x ∈ awaiting W t → x ∈ L')
        ∧ no_destroy t ∧ ∀ d, open_frames d t = d.
Proof.
  intros (HL & Ha & Hout) HW H.
  destruct op as [x|x]; simpl in H.
  - apply bind_ok in H as (o & Ho%load_shared_ok & H).
    apply bind_ok in H as (h & Hunlink & H).
    injection H as <- <-.
    assert (x ≠ a) as Hxa by congruence.
    assert (no_destroy [EvAcquired x]) as Hnd.
    { intros y Hy. apply list_elem_of_singleton in Hy. discriminate. }
    destruct (decide (x ∈ L)) as [HxL|HxL].
    + apply list_elem_of_split in HxL as (L1 & L2 & ->).
      destruct (ledger_unlink debug (nodes s) a L1 x L2 HL)
        as (h' & Hunlink' & HL' & Hx & Hframe).
      rewrite Hunlink' in Hunlink. injection Hunlink as ->.
      pose proof HL as (Hnodup & _ & _).
      apply NoDup_cons in Hnodup as [_ Hnodup].
      apply NoDup_app in Hnodup as (_ & Hdis & Hnodup2).
      apply NoDup_cons in Hnodup2 as [HxL2 _].
      exists (L1 ++ L2). split; [| split; [| split]]; [| | exact Hnd | reflexivity].
      * split; [exact HL' |]. simpl. split.
        -- rewrite lookup_insert_ne by exact Hxa. exact Ha.
        -- intros y Hy HyL. destruct (decide (y = x)) as [->|Hyx]; [exact Hx |].
           rewrite lookup_insert_ne in Hy by congruence.
           rewrite elem_of_app in HyL.
           rewrite Hframe; [| exact Hyx | | tauto | tauto].
           ++ apply Hout; [exact Hy |].
              rewrite elem_of_app, elem_of_cons. tauto.
           ++ intros ->. rewrite Ha in Hy. destruct Hy as [? Hy]. discriminate.
      * intros y Hy. simpl in Hy. apply elem_of_difference in Hy as [Hy Hyx].
        apply HW in Hy. rewrite elem_of_app, elem_of_cons in Hy.
        rewrite elem_of_singleton in Hyx. rewrite elem_of_app. tauto.
    + assert (nodes s !! x = Some UnRefNode_default) as Hx.
      { apply Hout; [rewrite Ho; eauto | exact HxL]. }
      rewrite (unlinkIfReferenced_unlinked debug _ _ Hx) in Hunlink.
      injection Hunlink as <-.
      exists L. split; [| split; [| split]]; [| | exact Hnd | reflexivity].
      * split; [exact HL |]. simpl. split.
        -- rewrite lookup_insert_ne by exact Hxa. exact Ha.
        -- intros y Hy HyL. destruct (decide (y = x)) as [->|Hyx]; [exact Hx |].
           rewrite lookup_insert_ne in Hy by congruence. auto.
      * intros y Hy. simpl in Hy. apply elem_of_difference in Hy as [Hy _].
        auto.
  - apply bind_ok in H as (o & Ho%load_shared_ok & H).
    apply bind_ok in H as ([o' last] & Hrel & H).
    assert (x ≠ a) as Hxa by congruence.
    assert (shared s !! a = None →
            <[x := o']> (shared s) !! a = None) as Ha'.
    { intros E. rewrite lookup_insert_ne by exact Hxa. exact E. }
    destruct last.
    + apply bind_ok in H as (h & Hlink & H). injection H as <- <-.
      assert (no_destroy [EvLastRelease x]) as Hnd.
      { intros y Hy. apply list_elem_of_singleton in Hy. discriminate. }
      destruct (decide (x ∈ L)) as [HxL|HxL].
      * destruct (ledger_linked (nodes s) a L x HL (or_intror HxL))
          as (n & Hn & Hlinked).
        rewrite (linkAsUnreferenced_linked debug _ x a n Hn Hlinked) in Hlink.
        injection Hlink as <-.
        exists L. split; [| split; [| split]]; [| | exact Hnd | reflexivity].
        -- split; [exact HL |]. simpl. split; [auto |].
           intros y Hy HyL. destruct (decide (y = x)) as [->|Hyx]; [tauto |].
           rewrite lookup_insert_ne in Hy by congruence. auto.
        -- intros y Hy. simpl in Hy. apply elem_of_union in Hy as [Hy|Hy]; [auto |].
           apply elem_of_singleton in Hy as ->. exact HxL.
      * assert (nodes s !! x = Some UnRefNode_default) as Hx.
        { apply Hout; [rewrite Ho; eauto | exact HxL]. }
        destruct (ledger_link debug (nodes s) a L x HL Hx)
          as (h' & Hlink' & HL' & Hframe).
        rewrite Hlink' in Hlink. injection Hlink as ->.
        exists (L ++ [x]).
        split; [| split; [| split]]; [| | exact Hnd | reflexivity].
        -- split; [exact HL' |]. simpl. split; [auto |].
           intros y Hy HyL. rewrite elem_of_app, list_elem_of_singleton in HyL.
           assert (y ≠ x) as Hyx by tauto.
           rewrite lookup_insert_ne in Hy by congruence.
           rewrite Hframe; [| exact Hyx | | tauto].
           ++ apply Hout; [exact Hy | tauto].
           ++ intros ->. rewrite Ha in Hy. destruct Hy as [? Hy]. discriminate.
        -- intros y Hy. simpl in Hy. rewrite elem_of_app, list_elem_of_singleton.
           apply elem_of_union in Hy as [Hy|Hy]; [auto |].
           apply elem_of_singleton in Hy. auto.
    + injection H as <- <-.
      exists L. split; [| split; [| split]]; [| auto | | reflexivity].
      * split; [exact HL |]. simpl. split; [auto |].
        intros y Hy HyL. destruct (decide (y = x)) as [->|Hyx].
        -- apply Hout; [rewrite Ho; eauto | exact HyL].
        -- rewrite lookup_insert_ne in Hy by congruence. auto.
      * intros y Hy. apply elem_of_nil in Hy as [].
Qed.

Lemma awaiting_app (W : gset loc) t1 t2 :
  awaiting W (t1 ++ t2) = awaiting (awaiting W t1) t2.
Proof. apply foldl_app. Qed.

Lemma open_frames_app t1 : ∀ d t2,
  open_frames d (t1 ++ t2) = open_frames (open_frames d t1) t2.
Proof. induction t1 as [|[] t1 IH]; intros d t2; simpl; auto. Qed.

Lemma no_destroy_app t1 t2 :
  no_destroy t1 → no_destroy t2 → no_destroy (t1 ++ t2).
Proof.
  intros H1 H2 x Hx. apply elem_of_app in Hx as [Hx|Hx]; [apply (H1 x Hx) | apply (H2 x Hx)].
Qed.

Lemma run_body_ok a ops : ∀ s L (W : gset loc) s' t,
  world_ok a s L → (∀ x, x ∈ W → x ∈ L) →
  run_body w debug a s ops = Ok (s', t) →
  ∃ L', world_ok a s' L' ∧ (∀ x, x ∈ awaiting W t → x ∈ L')
        ∧ no_destroy t ∧ ∀ d, open_frames d t = d.
Proof.
  induction ops as [|op ops IH]; intros s L W s' t Hok HW H; simpl in H.
  - injection H as <- <-. exists L. split; [exact Hok |]. split; [exact HW |].
    split; [| reflexivity]. intros x Hx. apply elem_of_nil in Hx as [].
  - apply bind_ok in H as ([s1 t1] & Hop & H).
    apply bind_ok in H as ([s2 t2] & Hrest & H). injection H as <- <-.
    destruct (run_handle_op_ok a s L W op s1 t1 Hok HW Hop)
      as (L1 & Hok1 & HW1 & Hnd1 & Hfr1).
    destruct (IH s1 L1 (awaiting W t1) s2 t2 Hok1 HW1 Hrest)
      as (L2 & Hok2 & HW2 & Hnd2 & Hfr2).
    exists L2. split; [exact Hok2 |]. split; [| split].
    + intros x Hx. rewrite awaiting_app in Hx. auto.
    + apply no_destroy_app; assumption.
    + intros d. rewrite open_frames_app, Hfr1, Hfr2. reflexivity.
Qed.

Lemma run_callbacks_ok a cbs : ∀ s L (W : gset loc) s' t,
  world_ok a s L → (∀ x, x ∈ W → x ∈ L) →
  run_callbacks w debug a s cbs = Ok (s', t) →
  ∃ L', world_ok a s' L' ∧ (∀ x, x ∈ awaiting W t → x ∈ L')
        ∧ no_destroy t ∧ ∀ d, open_frames d t = d.
Proof.
  induction cbs as [|cb cbs IH]; intros s L W s' t Hok HW H; simpl in H.
  - injection H as <- <-. exists L. split; [exact Hok |]. split; [exact HW |].
    split; [| reflexivity]. intros x Hx. apply elem_of_nil in Hx as [].
  - apply bind_ok in H as ([s1 t1] & Hbody & H).
    apply bind_ok in H as ([s2 t2] & Hrest & H). injection H as <- <-.
    destruct (run_body_ok a (body cb) s L W s1 t1 Hok HW Hbody)
      as (L1 & Hok1 & HW1 & Hnd1 & Hfr1).
    destruct (IH s1 L1 (awaiting W t1) s2 t2 Hok1 HW1 Hrest)
      as (L2 & Hok2 & HW2 & Hnd2 & Hfr2).
    exists L2. split; [exact Hok2 |]. split; [| split].
    + intros x Hx. apply HW2.
      change (EvEnter cb :: t1 ++ EvLeave cb :: t2)
        with ([EvEnter cb] ++ t1 ++ [EvLeave cb] ++ t2) in Hx.
      rewrite !awaiting_app in Hx. exact Hx.
    + intros x Hx. apply elem_of_cons in Hx as [Hx|Hx]; [discriminate |].
      apply elem_of_app in Hx as [Hx|Hx]; [exact (Hnd1 x Hx) |].
      apply elem_of_cons in Hx as [Hx|Hx]; [discriminate |].
      exact (Hnd2 x Hx).
    + intros d. simpl. rewrite open_frames_app, Hfr1. simpl. apply Hfr2.
Qed.

Lemma is_ledger_delete (h : heap) a L x :
  is_ledger h a L → x ≠ a → x ∉ L → is_ledger (delete x h) a L.
Proof.
  intros (Hnd & Ha & Hc) Hxa HxL. split; [exact Hnd |]. split.
  - rewrite lookup_delete_ne by exact Hxa. exact Ha.
  - apply (chain_frame h); [| exact Hc].
    intros y Hy. apply lookup_delete_ne. intros ->. auto.
Qed.

(** The drain destroys the nodes of the ledger in their order and leaves
    the ledger empty. *)
Lemma drainAll_ledger a L : ∀ fuel s,
  is_ledger (nodes s) a L → (length L <= fuel)%nat →
  ∃ s', drainAll debug fuel a s = Ok (s', map EvDestroy L)
        ∧ is_ledger (nodes s') a []
        ∧ (∀ x, x ∈ L → nodes s' !! x = None ∧ shared s' !! x = None)
        ∧ (∀ l, l ∉ L → l ≠ a → nodes s' !! l = nodes s !! l)
        ∧ (∀ l, l ∉ L → shared s' !! l = shared s !! l).
Proof.
  induction L as [|x L IH]; intros fuel s HL Hlen.
  - exists s. pose proof (ledger_anchor _ _ _ HL) as Ha. simpl in Ha.
    split; [| split; [exact HL |]].
    + destruct fuel; simpl; rewrite (load_some _ _ _ Ha); simpl;
        rewrite decide_True by reflexivity; reflexivity.
    + split; [| auto]. intros x Hx. apply elem_of_nil in Hx as [].
  - destruct fuel as [|fuel]; [simpl in Hlen; lia |].
    pose proof (ledger_anchor _ _ _ HL) as Ha. simpl in Ha.
    pose proof HL as (Hnd & _ & _).
    apply NoDup_cons in Hnd as [HaL Hnd].
    apply NoDup_cons in Hnd as [HxL _].
    apply not_elem_of_cons in HaL as [Hax HaL].
    destruct (ledger_unlink debug (nodes s) a [] x L HL)
      as (h & Hunlink & HL' & Hx & Hframe).
    simpl in HL'.
    destruct (IH fuel (mkWorld (delete x h) (delete x (shared s))))
      as (s' & Hdrain & Hempty & Hgone & Hnodes & Hshared).
    { simpl. apply is_ledger_delete; auto. }
    { simpl in Hlen. lia. }
    simpl in Hnodes, Hshared.
    exists s'. split; [| split; [exact Hempty |]].
    + simpl. rewrite (load_some _ _ _ Ha). simpl.
      rewrite decide_False by auto.
      rewrite Hunlink. simpl. rewrite Hdrain. reflexivity.
    + split; [| split].
      * intros y Hy. apply elem_of_cons in Hy as [->|Hy]; [| auto].
        rewrite Hnodes, Hshared by auto.
        rewrite !lookup_delete_eq. auto.
      * intros l Hl Hla. apply not_elem_of_cons in Hl as [Hlx HlL].
        rewrite Hnodes by auto. rewrite lookup_delete_ne by auto.
        apply Hframe; auto. apply not_elem_of_nil.
      * intros l Hl. apply not_elem_of_cons in Hl as [Hlx HlL].
        rewrite Hshared by auto. apply lookup_delete_ne. auto.
Qed.
End SpinFacts.

Lemma ledger_length (h : heap) a L : is_ledger h a L → (length L < size h)%nat.
Proof.
  intros HL.
  assert (list_to_set (a :: L) ⊆ dom h) as Hsub.
  { intros x Hx. apply elem_of_list_to_set, elem_of_cons in Hx.
    destruct (ledger_linked h a L x HL Hx) as (n & Hn & _).
    apply (elem_of_dom_2 _ _ _ Hn). }
  apply subseteq_size in Hsub.
  destruct HL as (Hnd & _ & _).
  rewrite size_list_to_set, size_dom in Hsub by exact Hnd.
  simpl in Hsub. lia.
Qed.

Lemma open_frames_destroys L : ∀ d t,
  (∃ t', map EvDestroy L = t ++ t') → open_frames d t = d.
Proof.
  induction L as [|x L IH]; intros d t [t' E].
  - symmetry in E. apply app_eq_nil in E as [-> _]. reflexivity.
  - destruct t as [|e t]; [reflexivity |].
    simpl in E. injection E as <- E. simpl. apply IH. eauto.
Qed.

(** A [destroy()] that comes after balanced callback frames, among
    [destroy()]s only, finds no frame on the stack. *)
Lemma destroy_outside_frames t1 L t x t' :
  no_destroy t1 → open_frames 0 t1 = 0%nat →
  t1 ++ map EvDestroy L = t ++ EvDestroy x :: t' →
  open_frames 0 t = 0%nat.
Proof.
  intros Hnd Hfr E.
  apply app_eq_inv in E as [(k & -> & E)|(k & -> & E)].
  - destruct k as [|e k].
    + rewrite app_nil_r in Hfr. exact Hfr.
    + injection E as <- _. exfalso. apply (Hnd x).
      apply elem_of_app. right. apply list_elem_of_here.
  - rewrite open_frames_app, Hfr. apply (open_frames_destroys L). eauto.
Qed.

(** C3 (as amended): [spinOnce()] drains the ledger before it returns.
    When the due callbacks run through, [spinOnce()] returns; its events
    are those of the callbacks followed by one [destroy()] for each node
    then in the ledger, in ledger order, and the ledger is empty
    afterwards.  Every object whose last reference was released in a
    callback of this spin and that no callback of the spin acquired again
    afterwards is among the destroyed ones and is gone from the store, and
    at each [destroy()] no callback frame is open. *)
Theorem spinOnce_drains_before_return (w : positive) (debug : bool)
    (ex : Executor) (L0 : list loc) (s1 : world) (t1 : list event) :
  world_ok (unreferenced_nodes ex) (live ex) L0 →
  run_callbacks w debug (unreferenced_nodes ex) (live ex) (due_callbacks ex)
  = Ok (s1, t1) →
  ∃ ex' res L1,
    spinOnce w debug ex = Ok (ex', res, t1 ++ map EvDestroy L1)
    ∧ is_ledger (nodes s1) (unreferenced_nodes ex) L1
    ∧ is_ledger (nodes (live ex')) (unreferenced_nodes ex') []
    ∧ (∀ x, x ∈ awaiting ∅ t1 →
            EvDestroy x ∈ t1 ++ map EvDestroy L1
            ∧ nodes (live ex') !! x = None
            ∧ shared (live ex') !! x = None)
    ∧ (∀ t x t', t1 ++ map EvDestroy L1 = t ++ EvDestroy x :: t' →
                 open_frames 0 t = 0%nat).
Proof.
  intros Hok Hrun.
  destruct (run_callbacks_ok w debug (unreferenced_nodes ex) (due_callbacks ex)
              (live ex) L0 ∅ s1 t1 Hok) as
    (L1 & (HL1 & Ha1 & Hout1) & Hawait & Hnd & Hfr); [set_solver | exact Hrun |].
  destruct (drainAll_ledger debug (unreferenced_nodes ex) L1
              (size (nodes s1)) s1 HL1) as (s2 & Hdrain & Hempty & Hgone & _).
  { pose proof (ledger_length _ _ _ HL1). lia. }
  eexists _, _, L1. split; [| split; [exact HL1 | split; [| split]]].
  - unfold spinOnce. rewrite Hrun. simpl.
    rewrite Hdrain. simpl. reflexivity.
  - exact Hempty.
  - intros x Hx. apply Hawait in Hx. split.
    + apply elem_of_app. right. apply list_elem_of_fmap. eauto.
    + apply Hgone, Hx.
  - intros t x t' E. exact (destroy_outside_frames t1 L1 t x t' Hnd (Hfr 0%nat) E).
Qed.

Lemma example_executor_ok :
  world_ok (unreferenced_nodes example_executor) (live example_executor) [].
Proof.
  split; [| split].
  - apply (bool_decide_unpack _). vm_compute. reflexivity.
  - reflexivity.
  - intros x [o Hx] _. simpl in *.
    rewrite lookup_insert in Hx. case_decide as E2; [subst x; reflexivity |].
    rewrite lookup_insert in Hx. case_decide as E3; [subst x; reflexivity |].
    rewrite lookup_empty in Hx. discriminate.
Qed.

Lemma spinOnce_drains_before_return_witness :
  ∃ ex' res L1,
    spinOnce 64 true example_executor
    = Ok (ex', res, example_callbacks_outcome.2 ++ map EvDestroy L1)
    ∧ is_ledger (nodes example_callbacks_outcome.1) 1 L1
    ∧ is_ledger (nodes (live ex')) (unreferenced_nodes ex') []
    ∧ (∀ x, x ∈ awaiting ∅ example_callbacks_outcome.2 →
            EvDestroy x ∈ example_callbacks_outcome.2 ++ map EvDestroy L1
            ∧ nodes (live ex') !! x = None
            ∧ shared (live ex') !! x = None)
    ∧ (∀ t x t',
         example_callbacks_outcome.2 ++ map EvDestroy L1
         = t ++ EvDestroy x :: t' →
         open_frames 0 t = 0%nat).
Proof.
  apply (spinOnce_drains_before_return 64 true example_executor []
           example_callbacks_outcome.1 example_callbacks_outcome.2).
  - exact example_executor_ok.
  - vm_compute. reflexivity.
Defined.

(** C3 as stated fails: an object whose last reference is released in a
    callback is not destroyed when a later callback of the same spin takes
    a reference to it again.  In [resurrecting_executor] the first callback
    releases the last reference to object 2 ([release()] returns [true] and
    the object is linked into the ledger), the second one acquires it
    ([retain()], then [unlinkIfReferenced()]); the drain finds the ledger
    empty, no [destroy()] is called, and the object is alive, unlinked,
    with a count of one when [spinOnce()] returns. *)
Lemma spinOnce_drains_before_return_counterexample :
  let cb0 := mkExecutorCallback 0 false [Drop 2] in
  let cb5 := mkExecutorCallback 5 false [Acquire 2] in
  let t := [EvEnter cb0; EvLastRelease 2; EvLeave cb0;
            EvEnter cb5; EvAcquired 2; EvLeave cb5] in
  world_ok (unreferenced_nodes resurrecting_executor)
    (live resurrecting_executor) []
  ∧ ∃ ex',
      spinOnce 64 true resurrecting_executor
      = Ok (ex', mkSpinResult 10 None, t)
      ∧ (EvLastRelease 2 ∈ t)
      ∧ (EvDestroy 2 ∉ t)
      ∧ shared (live ex') !! 2%positive = Some (mkSharedObject 1)
      ∧ nodes (live ex') !! 2%positive = Some UnRefNode_default.
Proof.
  intros cb0 cb5 t. split.
  - split; [| split].
    + apply (bool_decide_unpack _). vm_compute. reflexivity.
    + reflexivity.
    + intros x [o Hx] _. simpl in *.
      rewrite lookup_insert in Hx. case_decide as E2; [subst x; reflexivity |].
      rewrite lookup_empty in Hx. discriminate.
  - eexists. split; [vm_compute; reflexivity |].
    split; [| split; [| split]].
    + apply list_elem_of_further, list_elem_of_here.
    + intros H. unfold t in H.
      repeat (apply elem_of_cons in H as [H|H]; [discriminate |]).
      apply elem_of_nil in H as [].
    + vm_compute. reflexivity.
    + vm_compute. reflexivity.
Qed.

(** The spin of [example_executor], event by event: the callback due at 0
    fires before the one due at 5, objects 2 and 3 lose their last
    reference inside the callbacks and are destroyed, in this order, once
    both frames are left. *)
Example spinOnce_example :
  let cb0 := mkExecutorCallback 0 false [Drop 2; Drop 3] in
  let cb5 := mkExecutorCallback 5 false [Acquire 3; Drop 3; Drop 3] in
  ∃ ex',
    spinOnce 64 true example_executor
    = Ok (ex', mkSpinResult 10 (Some 20),
          [EvEnter cb0; EvLastRelease 2; EvLeave cb0;
           EvEnter cb5; EvAcquired 3; EvLastRelease 3; EvLeave cb5;
           EvDestroy 2; EvDestroy 3])
    ∧ awaiting ∅ example_callbacks_outcome.2 = {[2%positive; 3%positive]}
    ∧ callbacks ex' = [mkExecutorCallback 20 false [Drop 4]].
Proof.
  eexists. split; [vm_compute; reflexivity |].
  split; [| reflexivity].
  apply (bool_decide_unpack _). vm_compute. reflexivity.
Qed.


(** * Further properties of the shared object *)

(** ** The reference count at its edges *)

Lemma minus_one_mod (w : positive) :
  (0 - 1) mod size_t_modulus w = size_t_modulus w - 1.
Proof.
  pose proof (size_t_modulus_pos w) as HM.
  replace (0 - 1) with (size_t_modulus w - 1 + (-1) * size_t_modulus w) by lia.
  rewrite Z_mod_plus_full. apply Z.mod_small. lia.
Qed.

Lemma release_unchecked (w : positive) (o : SharedObject) :
  release w false o
  = Ok (mkSharedObject ((ref_count_ o - 1) mod size_t_modulus w),
        (ref_count_ o - 1) mod size_t_modulus w =? 0).
Proof. reflexivity. Qed.

(** X1: [release()] on a count of zero.  With assertions compiled in the
    call stops at the assertion.  Without them the count wraps to
    [2^w - 1]: the call returns [false] and the object counts as
    referenced afterwards. *)
Theorem release_at_zero (w : positive) (o : SharedObject) :
  ref_count_ o = 0 →
  release w true o = Fault AssertionFailure
  ∧ ∃ o', release w false o = Ok (o', false)
          ∧ ref_count_ o' = 2 ^ Z.pos w - 1
          ∧ isReferenced o' = true.
Proof.
  intros Hz. pose proof (size_t_modulus_pos w) as HM. split.
  - unfold release. rewrite Hz. reflexivity.
  - rewrite release_unchecked, Hz, minus_one_mod.
    eexists. split; [| split].
    + do 2 f_equal. apply Z.eqb_neq. lia.
    + reflexivity.
    + unfold isReferenced. simpl. apply Z.ltb_lt. lia.
Qed.

Lemma release_at_zero_witness :
  release 64 true SharedObject_default = Fault AssertionFailure
  ∧ ∃ o', release 64 false SharedObject_default = Ok (o', false)
          ∧ ref_count_ o' = 2 ^ 64 - 1
          ∧ isReferenced o' = true.
Proof. apply (release_at_zero 64 SharedObject_default). reflexivity. Defined.

(** X2: [retain()] and [release()] undo each other.  Below the top of the
    range, releasing right after retaining gives the object back and
    returns [true] exactly when the object was unreferenced before; on a
    referenced object, retaining right after releasing gives it back too. *)
Theorem retain_release_round_trip (w : positive) (debug : bool)
    (o : SharedObject) :
  0 <= ref_count_ o → ref_count_ o + 1 < size_t_modulus w →
  release w debug (retain w o) = Ok (o, ref_count_ o =? 0)
  ∧ (0 < ref_count_ o →
     ∃ o' b, release w debug o = Ok (o', b) ∧ retain w o' = o).
Proof.
  intros H0 H1. destruct o as [c]. simpl in *. split.
  - rewrite (retain_below w) by (simpl; lia).
    rewrite (release_above w) by (simpl; lia). simpl.
    do 3 f_equal; lia.
  - intros Hpos. rewrite (release_above w) by (simpl; lia). simpl.
    eexists _, _. split; [reflexivity |].
    rewrite (retain_below w) by (simpl; lia). simpl. f_equal. lia.
Qed.

Lemma retain_release_round_trip_witness :
  release 64 true (retain 64 (mkSharedObject 3)) = Ok (mkSharedObject 3, false)
  ∧ (0 < 3 →
     ∃ o' b, release 64 true (mkSharedObject 3) = Ok (o', b)
             ∧ retain 64 o' = mkSharedObject 3).
Proof.
  apply (retain_release_round_trip 64 true (mkSharedObject 3)).
  - simpl. lia.
  - unfold size_t_modulus. simpl. lia.
Defined.

(** X3: the count follows the calls.  From a count [c], as long as [c]
    plus the balance of every prefix stays a [std::size_t], every call
    succeeds, the final count is [c] plus the balance of all the calls,
    [isReferenced()] after a call tells whether the count so far is
    positive, and a call returns [true] exactly when it is a [release()]
    that brings the count to zero. *)
Theorem count_follows_calls (w : positive) (debug : bool) (cs : list call)
    (o : SharedObject) :
  size_t_range w o →
  (∀ k, (1 <= k <= length cs)%nat →
        0 <= ref_count_ o + balance (take k cs) < size_t_modulus w) →
  ∃ obs,
    run_calls w debug cs o
    = Ok (mkSharedObject (ref_count_ o + balance cs), obs)
    ∧ length obs = length cs
    ∧ ∀ i ob, obs !! i = Some ob →
        referenced_after ob = (0 <? ref_count_ o + balance (take (S i) cs))
        ∧ (returned ob = Some true ↔
           cs !! i = Some CallRelease
           ∧ ref_count_ o + balance (take (S i) cs) = 0).
Proof.
  intros Ho Hk. exists (counter_observations (ref_count_ o) cs).
  split; [exact (run_calls_counter w debug cs o Ho Hk) |].
  split; [apply counter_observations_length |].
  intros i ob. apply counter_observations_lookup.
Qed.

Lemma count_follows_calls_witness :
  ∃ obs,
    run_calls 64 true [CallRelease; CallRetain; CallRetain; CallRelease]
      (mkSharedObject 1)
    = Ok (mkSharedObject
            (1 + balance [CallRelease; CallRetain; CallRetain; CallRelease]),
          obs)
    ∧ length obs = 4%nat
    ∧ ∀ i ob, obs !! i = Some ob →
        referenced_after ob
        = (0 <? 1 + balance
                      (take (S i) [CallRelease; CallRetain; CallRetain; CallRelease]))
        ∧ (returned ob = Some true ↔
           [CallRelease; CallRetain; CallRetain; CallRelease] !! i
           = Some CallRelease
           ∧ 1 + balance
                   (take (S i) [CallRelease; CallRetain; CallRetain; CallRelease])
             = 0).
Proof.
  apply (count_follows_calls 64 true
           [CallRelease; CallRetain; CallRetain; CallRelease]
           (mkSharedObject 1)).
  - unfold size_t_range, size_t_modulus. simpl. lia.
  - intros k Hk. unfold size_t_modulus.
    destruct k as [|[|[|[|[|k]]]]]; simpl in *; lia.
Defined.

(** One release too many stops at the assertion. *)
Lemma run_calls_over_release (w : positive) cs : ∀ o,
  0 <= ref_count_ o →
  (∀ k, (k <= length cs)%nat →
        ref_count_ o + balance (take k cs) < size_t_modulus w) →
  (∃ k, ref_count_ o + balance (take k cs) < 0) →
  run_calls w true cs o = Fault AssertionFailure.
Proof.
  induction cs as [|c cs IH]; intros [n] Hn Hup [k Hneg]; simpl in *.
  - rewrite take_nil in Hneg. simpl in Hneg. lia.
  - pose proof (Hup 1%nat ltac:(lia)) as H1. simpl in H1. rewrite ?take_0 in H1.
    pose proof (Hup 0%nat ltac:(lia)) as H0. simpl in H0.
    destruct k as [|k]; [simpl in Hneg; lia |]. simpl in Hneg.
    destruct c; simpl in H1; unfold run_call.
    + rewrite (retain_below w) by (simpl; lia). simpl.
      rewrite IH; [reflexivity | simpl; lia | |].
      * intros j Hj. specialize (Hup (S j) ltac:(lia)). simpl in *. lia.
      * exists k. simpl. lia.
    + destruct (decide (n = 0)) as [->|Hnz]; [reflexivity |].
      rewrite (release_above w) by (simpl; lia). simpl.
      rewrite IH; [reflexivity | simpl; lia | |].
      * intros j Hj. specialize (Hup (S j) ltac:(lia)). simpl in *. lia.
      * exists k. simpl. lia.
Qed.

(** X4: releasing more often than retaining is caught.  On a fresh object,
    with assertions compiled in, calls of which some prefix has more
    releases than retains (the count staying below [2^w]) end in an
    assertion failure. *)
Theorem over_release_asserts (w : positive) (cs : list call) (k : nat) :
  (∀ j, (j <= length cs)%nat → balance (take j cs) < size_t_modulus w) →
  balance (take k cs) < 0 →
  run_calls w true cs SharedObject_default = Fault AssertionFailure.
Proof.
  intros Hup Hneg. apply run_calls_over_release; simpl; [lia | exact Hup |].
  exists k. exact Hneg.
Qed.

Lemma over_release_asserts_witness :
  run_calls 64 true [CallRetain; CallRelease; CallRelease; CallRetain]
    SharedObject_default = Fault AssertionFailure.
Proof.
  apply (over_release_asserts 64
           [CallRetain; CallRelease; CallRelease; CallRetain] 3).
  - intros j Hj. unfold size_t_modulus.
    destruct j as [|[|[|[|[|j]]]]]; simpl in *; lia.
  - simpl. lia.
Defined.

(** ** The two calls on any store *)

(** X5: a node that breaks I1 (one link null, the other not).  With
    assertions compiled in both calls stop at their assertion; without
    them both find their condition false and leave the store alone. *)
Theorem mixed_node_is_left_alone (h : heap) (this origin : loc)
    (n : UnRefNode) :
  h !! this = Some n → both_or_none n = false →
  linkAsUnreferenced true h this origin = Fault AssertionFailure
  ∧ unlinkIfReferenced true h this = Fault AssertionFailure
  ∧ linkAsUnreferenced false h this origin = Ok h
  ∧ unlinkIfReferenced false h this = Ok h.
Proof.
  intros Hn Hmixed. unfold linkAsUnreferenced, unlinkIfReferenced.
  rewrite (load_some _ _ _ Hn). simpl. rewrite Hmixed. simpl.
  destruct n as [[p|] [q|]]; try discriminate Hmixed; simpl; auto.
Qed.

Lemma mixed_node_is_left_alone_witness :
  linkAsUnreferenced true mixed_store 2 1 = Fault AssertionFailure
  ∧ unlinkIfReferenced true mixed_store 2 = Fault AssertionFailure
  ∧ linkAsUnreferenced false mixed_store 2 1 = Ok mixed_store
  ∧ unlinkIfReferenced false mixed_store 2 = Ok mixed_store.
Proof.
  apply (mixed_node_is_left_alone mixed_store 2 1
           (mkUnRefNode None (Some 1%positive))); reflexivity.
Defined.

Lemma store_prev_dom (h h' : heap) l v :
  store_prev h l v = Ok h' → dom h' = dom h.
Proof.
  intros (n & Hn & ->)%store_prev_ok. apply dom_insert_lookup_L. eauto.
Qed.

Lemma store_next_dom (h h' : heap) l v :
  store_next h l v = Ok h' → dom h' = dom h.
Proof.
  intros (n & Hn & ->)%store_next_ok. apply dom_insert_lookup_L. eauto.
Qed.

Lemma linkAsUnreferenced_dom debug (h h' : heap) this origin :
  linkAsUnreferenced debug h this origin = Ok h' → dom h' = dom h.
Proof.
  unfold linkAsUnreferenced. intros H.
  apply bind_ok in H as (n & _ & H).
  apply bind_ok in H as (u & _ & H).
  destruct (is_null (prev_node n) && is_null (next_node n)); [| congruence].
  apply bind_ok in H as (h1 & H1%store_next_dom & H).
  apply bind_ok in H as (o & _ & H).
  apply bind_ok in H as (h2 & H2%store_prev_dom & H).
  apply bind_ok in H as (o2 & _ & H).
  apply bind_ok in H as (p & _ & H).
  apply bind_ok in H as (h3 & H3%store_next_dom & H).
  apply store_prev_dom in H. congruence.
Qed.

Lemma unlinkIfReferenced_dom debug (h h' : heap) this :
  unlinkIfReferenced debug h this = Ok h' → dom h' = dom h.
Proof.
  unfold unlinkIfReferenced. intros H.
  apply bind_ok in H as (n & _ & H).
  apply bind_ok in H as (u & _ & H).
  destruct (negb (is_null (prev_node n)) && negb (is_null (next_node n)));
    [| congruence].
  apply bind_ok in H as (p & _ & H).
  apply bind_ok in H as (h1 & H1%store_next_dom & H).
  apply bind_ok in H as (n1 & _ & H).
  apply bind_ok in H as (q & _ & H).
  apply bind_ok in H as (h2 & H2%store_prev_dom & H).
  apply bind_ok in H as (h3 & H3%store_next_dom & H).
  apply store_prev_dom in H. congruence.
Qed.

(** X6: the two calls neither create nor dispose of a node: after any
    sequence of them that goes through, on any receivers and anchors, the
    store holds nodes at the same addresses as before. *)
Theorem calls_keep_the_nodes (debug : bool) (ops : list node_op)
    (h h' : heap) :
  run_node_ops debug h ops = Ok h' → dom h' = dom h.
Proof.
  revert h. induction ops as [|op ops IH]; intros h H; simpl in H.
  - congruence.
  - apply bind_ok in H as (h1 & Hop & H). rewrite (IH h1 H).
    destruct op as [this origin|this]; simpl in Hop.
    + exact (linkAsUnreferenced_dom debug h h1 this origin Hop).
    + exact (unlinkIfReferenced_dom debug h h1 this Hop).
Qed.

Lemma calls_keep_the_nodes_witness :
  dom (final_store (run_node_ops true empty_ledger_store example_node_ops))
  = dom empty_ledger_store.
Proof.
  apply (calls_keep_the_nodes true example_node_ops).
  vm_compute. reflexivity.
Defined.

(** X7: [linkAsUnreferenced] writes to its receiver, to [origin] and to
    the node [origin.prev_node] points at, and to no other node; when the
    receiver was unlinked, [origin.prev_node] is the receiver afterwards. *)
Theorem linkAsUnreferenced_footprint (debug : bool) (h h' : heap)
    (this origin : loc) :
  linkAsUnreferenced debug h this origin = Ok h' →
  (∀ l, l ≠ this → l ≠ origin →
        prev_node <$> h !! origin ≠ Some (Some l) →
        h' !! l = h !! l)
  ∧ (h !! this = Some UnRefNode_default →
     prev_node <$> h' !! origin = Some (Some this)).
Proof.
  unfold linkAsUnreferenced. intros H.
  apply bind_ok in H as (n & Hn%load_ok & H).
  apply bind_ok in H as (u & _ & H).
  destruct (is_null (prev_node n) && is_null (next_node n)) eqn:Hnull.
  2: { injection H as <-. split; [auto |].
       intros Hd. rewrite Hn in Hd. injection Hd as ->. discriminate. }
  apply bind_ok in H as (h1 & (n0 & Hn0 & ->)%store_next_ok & H).
  apply bind_ok in H as (o & Ho%load_ok & H).
  apply bind_ok in H as (h2 & (n1 & Hn1 & ->)%store_prev_ok & H).
  apply bind_ok in H as (o2 & Ho2%load_ok & H).
  apply bind_ok in H as (p & Hp & H).
  apply bind_ok in H as (h3 & (np & Hnp & ->)%store_next_ok & H).
  apply store_prev_ok in H as (o3 & Ho3 & ->).
  destruct (prev_node o2) as [p'|] eqn:Hprev; [| discriminate].
  injection Hp as ->.
  assert (origin ≠ this) as Hot.
  { intros ->. rewrite lookup_insert_eq in Ho. injection Ho as <-.
    rewrite lookup_insert_eq in Ho2. injection Ho2 as <-.
    simpl in Hprev. rewrite Hn in Hn0. injection Hn0 as <-.
    destruct (prev_node n); discriminate. }
  rewrite !lookup_insert_ne in Ho2 by auto.
  split.
  - intros l Hlt Hlo Hlp.
    rewrite Ho2 in Hlp. simpl in Hlp. rewrite Hprev in Hlp.
    assert (p ≠ l) as Hpl by (intros ->; apply Hlp; reflexivity).
    rewrite !lookup_insert_ne by auto. reflexivity.
  - intros _. rewrite lookup_insert_eq. reflexivity.
Qed.

Lemma linkAsUnreferenced_footprint_witness :
  let h' := final_store (linkAsUnreferenced true three_node_ledger_store 5 1) in
  (∀ l, l ≠ 5%positive → l ≠ 1%positive →
        prev_node <$> three_node_ledger_store !! 1%positive ≠ Some (Some l) →
        h' !! l = three_node_ledger_store !! l)
  ∧ (three_node_ledger_store !! 5%positive = Some UnRefNode_default →
     prev_node <$> h' !! 1%positive = Some (Some 5%positive)).
Proof.
  apply (linkAsUnreferenced_footprint true three_node_ledger_store).
  vm_compute. reflexivity.
Defined.

(** X8: [unlinkIfReferenced] writes to its receiver and to the two nodes
    the receiver's links point at, and to no other node. *)
Theorem unlinkIfReferenced_footprint (debug : bool) (h h' : heap)
    (this : loc) (n : UnRefNode) :
  unlinkIfReferenced debug h this = Ok h' →
  h !! this = Some n →
  ∀ l, l ≠ this → prev_node n ≠ Some l → next_node n ≠ Some l →
       h' !! l = h !! l.
Proof.
  unfold unlinkIfReferenced. intros H Hthis.
  apply bind_ok in H as (n' & Hn%load_ok & H).
  rewrite Hthis in Hn. injection Hn as <-.
  apply bind_ok in H as (u & _ & H).
  destruct (negb (is_null (prev_node n)) && negb (is_null (next_node n))).
  2: { injection H as <-. auto. }
  apply bind_ok in H as (p & Hp & H).
  apply bind_ok in H as (h1 & (np & Hnp & ->)%store_next_ok & H).
  apply bind_ok in H as (n1 & Hn1%load_ok & H).
  apply bind_ok in H as (q & Hq & H).
  apply bind_ok in H as (h2 & (nq & Hnq & ->)%store_prev_ok & H).
  apply bind_ok in H as (h3 & (n3 & Hn3 & ->)%store_next_ok & H).
  apply store_prev_ok in H as (n4 & Hn4 & ->).
  destruct (prev_node n) as [p'|] eqn:Hprev; [| discriminate].
  injection Hp as ->.
  assert (next_node n1 = next_node n) as Hnext.
  { rewrite lookup_insert in Hn1. case_decide as E.
    - subst p. injection Hn1 as <-. reflexivity.
    - congruence. }
  rewrite Hnext in Hq.
  destruct (next_node n) as [q'|] eqn:Hnx; [| discriminate].
  injection Hq as ->.
  intros l Hlt Hlp Hlq.
  assert (p ≠ l) as Hpl by congruence.
  assert (q ≠ l) as Hql by congruence.
  rewrite !lookup_insert_ne by auto. reflexivity.
Qed.

Lemma unlinkIfReferenced_footprint_witness :
  final_store (unlinkIfReferenced true three_node_ledger_store 3) !! 1%positive
  = three_node_ledger_store !! 1%positive.
Proof.
  apply (unlinkIfReferenced_footprint true three_node_ledger_store _ 3
           (mkUnRefNode (Some 2%positive) (Some 4%positive))).
  - vm_compute. reflexivity.
  - reflexivity.
  - discriminate.
  - discriminate.
  - discriminate.
Defined.

(** ** The two calls on a ledger *)

(** X9: unlinking a node anywhere in a ledger takes that node out and
    keeps the others in their order: the walk from the anchor meets the
    nodes that were before it, then those that were after it, and the node
    itself is unlinked. *)
Theorem unlinkIfReferenced_keeps_order (debug : bool) (h : heap) (a : loc)
    (L1 : list loc) (x : loc) (L2 : list loc) :
  is_ledger h a (L1 ++ x :: L2) →
  ∃ h', unlinkIfReferenced debug h x = Ok h'
        ∧ h' !! x = Some UnRefNode_default
        ∧ is_ledger h' a (L1 ++ L2)
        ∧ ∀ fuel, (length (L1 ++ L2) <= fuel)%nat →
                  traverse fuel h' a = Ok (L1 ++ L2).
Proof.
  intros HL.
  destruct (ledger_unlink debug h a L1 x L2 HL) as (h' & Hun & HL' & Hx & _).
  exists h'. split; [exact Hun |]. split; [exact Hx |]. split; [exact HL' |].
  intros fuel Hlen. apply traverse_ledger; assumption.
Qed.

Lemma unlinkIfReferenced_keeps_order_witness :
  ∃ h', unlinkIfReferenced true three_node_ledger_store 3 = Ok h'
        ∧ h' !! 3%positive = Some UnRefNode_default
        ∧ is_ledger h' 1 ([2%positive] ++ [4%positive])
        ∧ ∀ fuel, (length ([2%positive] ++ [4%positive]) <= fuel)%nat →
                  traverse fuel h' 1 = Ok ([2%positive] ++ [4%positive]).
Proof.
  apply (unlinkIfReferenced_keeps_order true three_node_ledger_store 1
           [2%positive] 3 [4%positive]).
  apply (bool_decide_unpack _). vm_compute. reflexivity.
Defined.

(** X10: a node taken off the ledger and linked again goes to the back:
    unlinking a node of a ledger and linking it to the anchor again leaves
    the other nodes in their order, followed by that node. *)
Theorem relink_moves_to_tail (debug : bool) (h : heap) (a : loc)
    (L1 : list loc) (x : loc) (L2 : list loc) :
  is_ledger h a (L1 ++ x :: L2) →
  ∃ h1 h2, unlinkIfReferenced debug h x = Ok h1
           ∧ linkAsUnreferenced debug h1 x a = Ok h2
           ∧ is_ledger h2 a (L1 ++ L2 ++ [x])
           ∧ ∀ fuel, (length (L1 ++ L2 ++ [x]) <= fuel)%nat →
                     traverse fuel h2 a = Ok (L1 ++ L2 ++ [x]).
Proof.
  intros HL.
  destruct (ledger_unlink debug h a L1 x L2 HL) as (h1 & Hun & HL1 & Hx & _).
  destruct (ledger_link debug h1 a (L1 ++ L2) x HL1 Hx) as (h2 & Hlink & HL2 & _).
  rewrite <- app_assoc in HL2.
  exists h1, h2. split; [exact Hun |]. split; [exact Hlink |].
  split; [exact HL2 |].
  intros fuel Hlen. apply traverse_ledger; assumption.
Qed.

Lemma relink_moves_to_tail_witness :
  ∃ h1 h2, unlinkIfReferenced true three_node_ledger_store 2 = Ok h1
           ∧ linkAsUnreferenced true h1 2 1 = Ok h2
           ∧ is_ledger h2 1 ([] ++ [3; 4]%positive ++ [2%positive])
           ∧ ∀ fuel,
               (length ([] ++ [3; 4]%positive ++ [2%positive]) <= fuel)%nat →
               traverse fuel h2 1 = Ok ([] ++ [3; 4]%positive ++ [2%positive]).
Proof.
  apply (relink_moves_to_tail true three_node_ledger_store 1
           [] 2 [3; 4]%positive).
  apply (bool_decide_unpack _). vm_compute. reflexivity.
Defined.

(** The nodes of a chain are what the chain says. *)
Lemma chain_lookup_unique (h h' : heap) xs : ∀ p e l,
  chain h p xs e → chain h' p xs e → l ∈ xs → h' !! l = h !! l.
Proof.
  induction xs as [|x xs IH]; intros p e l Hc Hc' Hl.
  - apply elem_of_nil in Hl as [].
  - destruct Hc as [Hx Hrest], Hc' as [Hx' Hrest'].
    apply elem_of_cons in Hl as [->|Hl]; [congruence |].
    exact (IH x e l Hrest Hrest' Hl).
Qed.

Lemma ledger_lookup_unique (h h' : heap) a L l :
  is_ledger h a L → is_ledger h' a L → l = a ∨ l ∈ L → h' !! l = h !! l.
Proof.
  intros (_ & Ha & Hc) (_ & Ha' & Hc') [->|Hl]; [congruence |].
  exact (chain_lookup_unique h h' L a a l Hc Hc' Hl).
Qed.

(** X11: at the tail, [linkAsUnreferenced] undoes [unlinkIfReferenced]:
    unlinking the last node of a ledger and linking it to the anchor again
    gives back the very store. *)
Theorem unlink_then_link_at_tail (debug : bool) (h : heap) (a : loc)
    (L : list loc) (x : loc) :
  is_ledger h a (L ++ [x]) →
  ∃ h1, unlinkIfReferenced debug h x = Ok h1
        ∧ is_ledger h1 a L
        ∧ linkAsUnreferenced debug h1 x a = Ok h.
Proof.
  intros HL.
  destruct (ledger_unlink debug h a L x [] HL) as (h1 & Hun & HL1 & Hx & Hfr1).
  rewrite app_nil_r in HL1.
  destruct (ledger_link debug h1 a L x HL1 Hx) as (h2 & Hlink & HL2 & Hfr2).
  exists h1. split; [exact Hun |]. split; [exact HL1 |].
  rewrite Hlink. f_equal. apply map_eq. intros l.
  destruct (decide (l = a ∨ l ∈ L ++ [x])) as [Hin|Hout].
  - exact (ledger_lookup_unique h h2 a (L ++ [x]) l HL HL2 Hin).
  - rewrite elem_of_app, list_elem_of_singleton in Hout.
    rewrite Hfr2 by tauto. apply Hfr1; try tauto. apply not_elem_of_nil.
Qed.

Lemma unlink_then_link_at_tail_witness :
  ∃ h1, unlinkIfReferenced true three_node_ledger_store 4 = Ok h1
        ∧ is_ledger h1 1 [2; 3]%positive
        ∧ linkAsUnreferenced true h1 4 1 = Ok three_node_ledger_store.
Proof.
  apply (unlink_then_link_at_tail true three_node_ledger_store 1
           [2; 3]%positive 4).
  apply (bool_decide_unpack _). vm_compute. reflexivity.
Defined.

(** Linking before a node of the ledger, not only before the anchor. *)
Lemma ledger_link_before debug (h : heap) a L1 y L2 x :
  is_ledger h a (L1 ++ y :: L2) → h !! x = Some UnRefNode_default →
  ∃ h', linkAsUnreferenced debug h x y = Ok h'
        ∧ is_ledger h' a (L1 ++ x :: y :: L2).
Proof.
  intros HL Hx.
  destruct (ledger_unlinked_fresh h a _ x HL Hx) as [Hxa HxL].
  rewrite elem_of_app, elem_of_cons in HxL.
  set (p := default a (last L1)). set (q := default a (head L2)).
  destruct (ledger_linked h a _ p HL) as (np & Hnp & _).
  { destruct (default_last_elem a L1) as [[_ E]|[_ E]]; [left; exact E |].
    right. apply elem_of_app. left. exact E. }
  destruct HL as (Hnd & Ha & Hc).
  apply chain_app in Hc as [Hc1 [Hy Hc2]]. simpl in Hc1. fold p q in Hy.
  apply NoDup_cons in Hnd as [HaL Hnd].
  rewrite elem_of_app, elem_of_cons in HaL.
  apply NoDup_app in Hnd as (Hnd1 & Hdis & Hnd2).
  pose proof Hnd2 as Hnd2'. apply NoDup_cons in Hnd2' as [HyL2 HndL2].
  assert (y ∉ L1) as HyL1.
  { intros Hin. apply (Hdis y Hin), list_elem_of_here. }
  assert (∀ l, l ∈ L1 → l ∉ L2) as Hdis'.
  { intros l Hl Hl2. apply (Hdis l Hl), list_elem_of_further, Hl2. }
  assert (y ≠ a) as Hya by (intros E; apply HaL; auto).
  assert (p ≠ x) as Hpx.
  { destruct (default_last_elem a L1) as [[_ E]|[_ E]]; fold p in E.
    - congruence.
    - intros Epx. rewrite Epx in E. tauto. }
  assert (p ≠ y) as Hpy.
  { destruct (default_last_elem a L1) as [[_ E]|[_ E]]; fold p in E; congruence. }
  assert (x ≠ y) as Hxy by tauto.
  exists (linked_before h x y p (mkUnRefNode (Some p) (Some q)) np).
  split.
  { exact (linkAsUnreferenced_unlinked debug h x y p _ np Hx Hy eq_refl Hnp Hpx). }
  split; [| split].
  - apply NoDup_cons. split.
    + rewrite elem_of_app, !elem_of_cons.
      intros [?|[?|[?|?]]]; first [tauto | congruence].
    + apply NoDup_app. split; [exact Hnd1 |]. split.
      * intros l Hl Hl'. apply elem_of_cons in Hl' as [->|Hl']; [tauto |].
        exact (Hdis l Hl Hl').
      * apply NoDup_cons. split; [| exact Hnd2].
        rewrite elem_of_cons. tauto.
  - rewrite default_last_app, default_head_app, default_last_cons in Ha.
    rewrite default_last_app, default_head_app, !default_last_cons.
    simpl in *. rewrite linked_before_lookup.
    destruct (default_last_elem a L1) as [[E1 Ep]|[E1 Ep]]; fold p in E1, Ep.
    + subst L1. simpl in *. rewrite Ep in *. settle_decides.
      rewrite Ha in Hnp. injection Hnp as <-. reflexivity.
    + assert (a ≠ p) by (intros Eap; apply HaL; left; rewrite Eap; exact Ep).
      settle_decides. rewrite Ha.
      destruct L1 as [|y1 L1']; [discriminate |]. reflexivity.
  - apply chain_app. fold p. split.
    + simpl. apply (chain_retarget h _ a L1 y x Hnd1 Hc1).
      * intros l Hl Hne. rewrite linked_before_lookup.
        assert (l ≠ y) by congruence.
        assert (l ≠ x) by (intros ->; tauto).
        assert (l ≠ p).
        { destruct (default_last_elem a L1) as [[E _]|[E _]]; fold p in E.
          - subst L1. apply elem_of_nil in Hl as [].
          - congruence. }
        settle_decides. reflexivity.
      * intros z n Hz Hn. rewrite linked_before_lookup.
        assert (p = z) as Epz by (unfold p; rewrite Hz; reflexivity).
        rewrite Epz in *. settle_decides. congruence.
    + simpl. rewrite !linked_before_lookup. settle_decides.
      split; [reflexivity |]. split; [reflexivity |].
      apply (chain_frame h); [| exact Hc2].
      intros l Hl. rewrite linked_before_lookup.
      assert (l ≠ y) by congruence.
      assert (l ≠ x) by (intros ->; tauto).
      assert (l ≠ p).
      { destruct (default_last_elem a L1) as [[_ E]|[_ E]]; fold p in E.
        - intros Elp. apply HaL. right. right. rewrite <- E, <- Elp. exact Hl.
        - intros ->. exact (Hdis' p E Hl). }
      settle_decides. reflexivity.
Qed.

(** X12: [linkAsUnreferenced] splices its receiver right before [origin],
    whichever node of the list [origin] is: linking an unlinked node with
    a node of a ledger as [origin] puts it between that node and the one
    before it, and the walk from the anchor meets it there. *)
Theorem linkAsUnreferenced_before_origin (debug : bool) (h : heap) (a : loc)
    (L1 : list loc) (y : loc) (L2 : list loc) (x : loc) :
  is_ledger h a (L1 ++ y :: L2) →
  h !! x = Some UnRefNode_default →
  ∃ h', linkAsUnreferenced debug h x y = Ok h'
        ∧ is_ledger h' a (L1 ++ x :: y :: L2)
        ∧ ∀ fuel, (length (L1 ++ x :: y :: L2) <= fuel)%nat →
                  traverse fuel h' a = Ok (L1 ++ x :: y :: L2).
Proof.
  intros HL Hx.
  destruct (ledger_link_before debug h a L1 y L2 x HL Hx) as (h' & Hlink & HL').
  exists h'. split; [exact Hlink |]. split; [exact HL' |].
  intros fuel Hlen. apply traverse_ledger; assumption.
Qed.

Lemma linkAsUnreferenced_before_origin_witness :
  ∃ h', linkAsUnreferenced true three_node_ledger_store 5 3 = Ok h'
        ∧ is_ledger h' 1 ([2%positive] ++ 5%positive :: 3%positive :: [4%positive])
        ∧ ∀ fuel,
            (length ([2%positive] ++ 5%positive :: 3%positive :: [4%positive])
             <= fuel)%nat →
            traverse fuel h' 1
            = Ok ([2%positive] ++ 5%positive :: 3%positive :: [4%positive]).
Proof.
  apply (linkAsUnreferenced_before_origin true three_node_ledger_store 1
           [2%positive] 3 [4%positive] 5).
  - apply (bool_decide_unpack _). vm_compute. reflexivity.
  - reflexivity.
Defined.

(** ** Creation and destruction *)

(** X13: an object created with [createWithPmr] and destroyed with
    [destroyWithPmr] is gone again.  When the allocation succeeds,
    destroying the returned pointer goes through, runs the finalizer of
    the object built from the arguments before the storage is given back,
    removes that object and no other, and leaves the out-failure parameter
    alone; when the storage was free before, the objects are those there
    were before the creation. *)
Theorem create_then_destroy {Memory Concrete Failure Args : Type}
    (allocate : Memory → ptr * Memory) (construct : Args → Concrete)
    (MemoryError : Failure) (finalize : Concrete → Memory → Memory)
    (deallocate : loc → Memory → Memory) (debug : bool)
    (st : pmr_state Memory Concrete Failure) (args : Args) (c : loc) :
  (allocate (memory st)).1 = Some c →
  let created := createWithPmr allocate construct MemoryError st args in
  ∃ st',
    destroyWithPmr finalize deallocate debug created.2 created.1 = Ok st'
    ∧ memory st'
      = deallocate c (finalize (construct args) (allocate (memory st)).2)
    ∧ objects st' = delete c (objects st)
    ∧ (objects st !! c = None → objects st' = objects st)
    ∧ out_failure st' = out_failure st.
Proof.
  intros Halloc. unfold createWithPmr.
  destruct (allocate (memory st)) as [r m] eqn:E. simpl in Halloc. subst r.
  simpl. unfold destroyWithPmr. simpl. rewrite assert_holds. simpl.
  rewrite lookup_insert_eq. eexists. split; [reflexivity |]. simpl.
  split; [reflexivity |]. split; [apply delete_insert_eq |].
  split; [| reflexivity].
  intros Hfree. rewrite delete_insert_eq. apply delete_id. exact Hfree.
Qed.

Lemma create_then_destroy_witness :
  let st := mkPmrState (mkArena 1 1) (∅ : gmap loc nat) (None : option unit) in
  let created := createWithPmr arena_allocate (λ n : nat, n) tt st 7%nat in
  ∃ st',
    destroyWithPmr (λ _ m, m) arena_deallocate true created.2 created.1 = Ok st'
    ∧ memory st'
      = arena_deallocate 1 ((λ _ m, m) 7%nat (arena_allocate (memory st)).2)
    ∧ objects st' = delete 1%positive (objects st)
    ∧ (objects st !! 1%positive = None → objects st' = objects st)
    ∧ out_failure st' = out_failure st.
Proof.
  intros st.
  apply (create_then_destroy arena_allocate (λ n : nat, n) tt (λ _ m, m)
           arena_deallocate true st 7%nat 1%positive).
  reflexivity.
Defined.

(** X14: the result of a failed creation must not be destroyed.  When
    the allocation fails, [createWithPmr] returns [nullptr], and
    [destroyWithPmr] on it stops at its assertion when assertions are
    compiled in and calls the destructor through [nullptr] when they are
    not. *)
Theorem destroy_after_failed_create {Memory Concrete Failure Args : Type}
    (allocate : Memory → ptr * Memory) (construct : Args → Concrete)
    (MemoryError : Failure) (finalize : Concrete → Memory → Memory)
    (deallocate : loc → Memory → Memory)
    (st : pmr_state Memory Concrete Failure) (args : Args) :
  (allocate (memory st)).1 = None →
  let created := createWithPmr allocate construct MemoryError st args in
  destroyWithPmr finalize deallocate true created.2 created.1
  = Fault AssertionFailure
  ∧ destroyWithPmr finalize deallocate false created.2 created.1
    = Fault NullDereference.
Proof.
  intros Halloc. unfold createWithPmr.
  destruct (allocate (memory st)) as [r m] eqn:E. simpl in Halloc. subst r.
  simpl. split; reflexivity.
Qed.

Lemma destroy_after_failed_create_witness :
  let st := mkPmrState (mkArena 1 0) (∅ : gmap loc nat) (None : option unit) in
  let created := createWithPmr arena_allocate (λ n : nat, n) tt st 7%nat in
  destroyWithPmr (λ _ m, m) arena_deallocate true created.2 created.1
  = Fault AssertionFailure
  ∧ destroyWithPmr (λ _ m, m) arena_deallocate false created.2 created.1
    = Fault NullDereference.
Proof.
  intros st.
  apply (destroy_after_failed_create arena_allocate (λ n : nat, n) tt
           (λ _ m, m) arena_deallocate st 7%nat).
  reflexivity.
Defined.

(** ** Calling twice *)

(** X15: on any store, a second [linkAsUnreferenced] with the same
    receiver and anchor right after one that went through changes
    nothing: the first call leaves its receiver linked (or, for a receiver
    that breaks I1 without assertions, untouched), and the second call then
    skips its body. *)
Theorem linkAsUnreferenced_twice_anywhere (debug : bool) (h h' : heap)
    (this origin : loc) :
  linkAsUnreferenced debug h this origin = Ok h' →
  linkAsUnreferenced debug h' this origin = Ok h'.
Proof.
  intros H0. pose proof H0 as H. unfold linkAsUnreferenced in H.
  apply bind_ok in H as (n & Hn%load_ok & H).
  apply bind_ok in H as (u & _ & H).
  destruct (is_null (prev_node n) && is_null (next_node n)) eqn:Hnull.
  2: { injection H as <-. exact H0. }
  apply bind_ok in H as (h1 & (n0 & Hn0 & ->)%store_next_ok & H).
  apply bind_ok in H as (o & Ho%load_ok & H).
  apply bind_ok in H as (h2 & (n1 & Hn1 & ->)%store_prev_ok & H).
  apply bind_ok in H as (o2 & Ho2%load_ok & H).
  apply bind_ok in H as (p & Hp & H).
  apply bind_ok in H as (h3 & (np & Hnp & ->)%store_next_ok & H).
  apply store_prev_ok in H as (o3 & Ho3 & ->).
  destruct (prev_node o2) as [p'|] eqn:Hprev; [| discriminate].
  injection Hp as ->.
  assert (origin ≠ this) as Hot.
  { intros ->. rewrite lookup_insert_eq in Ho. injection Ho as <-.
    rewrite lookup_insert_eq in Ho2. injection Ho2 as <-.
    simpl in Hprev. rewrite Hn in Hn0. injection Hn0 as <-.
    destruct (prev_node n); discriminate. }
  rewrite lookup_insert_ne in Ho by auto.
  rewrite !lookup_insert_ne in Ho2 by auto.
  rewrite Ho in Ho2. injection Ho2 as ->.
  rewrite lookup_insert_eq in Hn1. injection Hn1 as <-. simpl in *.
  set (hfinal := <[origin := _]> _).
  assert (∃ n', hfinal !! this = Some n' ∧ is_linked n' = true)
    as (n' & Hn' & Hlinked).
  { unfold hfinal. rewrite lookup_insert_ne by auto.
    destruct (decide (p = this)) as [->|Hpt].
    - rewrite lookup_insert_eq. eexists. split; [reflexivity |].
      rewrite lookup_insert_eq in Hnp. injection Hnp as <-. simpl.
      rewrite Hprev. reflexivity.
    - rewrite lookup_insert_ne by auto. rewrite lookup_insert_eq.
      eexists. split; [reflexivity |]. simpl. rewrite Hprev. reflexivity. }
  exact (linkAsUnreferenced_linked debug hfinal this origin n' Hn' Hlinked).
Qed.

Lemma linkAsUnreferenced_twice_anywhere_witness :
  let h' := final_store (linkAsUnreferenced true stray_store 3 1) in
  linkAsUnreferenced true h' 3 1 = Ok h'.
Proof.
  apply (linkAsUnreferenced_twice_anywhere true stray_store).
  vm_compute. reflexivity.
Defined.
